(** * Vault secret manager adapter (pkg/secretsmanager/vault_secretmanager.go)

    A shallow embedding of the HashiCorp Vault backend of the secret agent:
    the bootstrap [newVault], the store and load operations [EnsureSecret]
    and [LoadSecret], and the per-type encoding helpers, together with a
    model of the library pieces they call ([encoding/base64]'s standard
    encoding and the Vault client calls, the latter as requests answered by
    an environment). *)

From Stdlib Require Import ZArith Lia List.
From Stdlib Require Import Strings.String Strings.Ascii Strings.Byte.
From Stdlib Require Import DecimalString.
From stdpp Require Import gmap strings list.

Local Open Scope string_scope.
Local Open Scope Z_scope.
Local Open Scope list_scope.

(** ** Go values

    A Go [string] is an immutable byte sequence: [string]; a [[]byte] is
    [list byte].  The conversions [string(b)] and [[]byte(s)] copy the bytes
    unchanged. *)

Definition string_of_bytes (data : list byte) : string := string_of_list_byte data.
Definition bytes_of_string (s : string) : list byte := list_byte_of_string s.

(** [uint(b)] for a byte, and the truncating conversion [byte(v)]. *)
Definition uint (b : byte) : Z := Z.of_N (Byte.to_N b).
Definition to_byte (v : Z) : byte := default x00 (Byte.of_N (Z.to_N (v mod 256))).

(** ** Errors

    The [error] values that flow through the adapter.  [ExternalError] is an
    error produced by the Vault client library or the network;
    [Errorf_w fmt err] is [fmt.Errorf(fmt ++ "%w", err)]; [Errorf msg] is
    [fmt.Errorf(msg)]; [WithStack err] is [errors.WithStack(err)];
    [CorruptInputError n] is [base64.CorruptInputError(n)]. *)
Inductive error : Type :=
| ExternalError (msg : string)
| Errorf_w (prefix : string) (err : error)
| Errorf (msg : string)
| WithStack (err : error)
| CorruptInputError (offset : Z).

(** [err.Error()], the message of an error. *)
Fixpoint Error (e : error) : string :=
  match e with
  | ExternalError msg => msg
  | Errorf_w prefix err => prefix +:+ Error err
  | Errorf msg => msg
  | WithStack err => Error err
  | CorruptInputError offset =>
      "illegal base64 data at input byte " +:+ NilZero.string_of_int (Z.to_int offset)
  end.

(** ** encoding/base64, StdEncoding (padded, not strict) *)
Module base64.

Definition encodeStd : string :=
  "ABCDEFGHIJKLMNOPQRSTUVWXYZabcdefghijklmnopqrstuvwxyz0123456789+/".

Definition StdPadding : byte := "="%byte.

(** [enc.encode[i]] *)
Definition encode (i : Z) : byte :=
  nth (Z.to_nat i) (bytes_of_string encodeStd) x00.

(** [enc.decodeMap]: 0xff everywhere, then [decodeMap[encoder[i]] = i]. *)
Fixpoint index_from (i : Z) (c : byte) (encoder : list byte) : Z :=
  match encoder with
  | [] => 255
  | e :: encoder' => if Byte.eqb e c then i else index_from (i + 1) c encoder'
  end.

Definition decodeMap (c : byte) : Z :=
  index_from 0 c (bytes_of_string encodeStd).

(** [Encode], with [dst] the returned list. *)
Fixpoint Encode (src : list byte) : list byte :=
  match src with
  | [] => []
  | s0 :: s1 :: s2 :: rest =>
      let val := Z.lor (Z.lor (Z.shiftl (uint s0) 16) (Z.shiftl (uint s1) 8)) (uint s2) in
      encode (Z.land (Z.shiftr val 18) 63)
      :: encode (Z.land (Z.shiftr val 12) 63)
      :: encode (Z.land (Z.shiftr val 6) 63)
      :: encode (Z.land val 63)
      :: Encode rest
  | [s0; s1] =>
      let val := Z.lor (Z.shiftl (uint s0) 16) (Z.shiftl (uint s1) 8) in
      [encode (Z.land (Z.shiftr val 18) 63);
       encode (Z.land (Z.shiftr val 12) 63);
       encode (Z.land (Z.shiftr val 6) 63);
       StdPadding]
  | [s0] =>
      let val := Z.shiftl (uint s0) 16 in
      [encode (Z.land (Z.shiftr val 18) 63);
       encode (Z.land (Z.shiftr val 12) 63);
       StdPadding;
       StdPadding]
  end.

Definition EncodeToString (src : list byte) : string :=
  string_of_bytes (Encode src).

Definition isNewline (c : byte) : bool :=
  Byte.eqb c x0a || Byte.eqb c x0d.

(** [for si < len(src) && (src[si] == '\n' || src[si] == '\r') { si++ }],
    on the unread suffix of [src]. *)
Fixpoint skipNewlines (src : list byte) (si : Z) : list byte * Z :=
  match src with
  | c :: rest => if isNewline c then skipNewlines rest (si + 1) else (src, si)
  | [] => ([], si)
  end.

(** How the [for j] loop of [decodeQuantum] is left: by a [return si, 0,
    err], or by falling out of the loop with [dlen], [dbuf] and [err]. *)
Inductive loopExit : Type :=
| Return (rest : list byte) (si : Z) (err : option error)
| Break (dlen : nat) (dbuf : list Z) (rest : list byte) (si : Z) (err : option error).

Definition exit_rest (e : loopExit) : list byte :=
  match e with
  | Return rest _ _ => rest
  | Break _ _ rest _ _ => rest
  end.

Definition exit_err (e : loopExit) : option error :=
  match e with
  | Return _ _ err => err
  | Break _ _ _ _ err => err
  end.

(** The [for j := 0; j < len(dbuf); j++] loop of [decodeQuantum]; [src] is
    the unread suffix [src[si:]]. *)
Fixpoint quantumLoop (j : nat) (dbuf : list Z) (src : list byte) (si : Z) : loopExit :=
  if (4 <=? j)%nat then Break 4 dbuf src si None else
  match src with
  | [] =>
      if (j =? 0)%nat then Return [] si None
      else Return [] si (Some (CorruptInputError (si - Z.of_nat j)))
  | c :: rest =>
      let si := si + 1 in
      let out := decodeMap c in
      if negb (Z.eqb out 255) then quantumLoop (S j) (<[j:=out]> dbuf) rest si
      else if isNewline c then quantumLoop j dbuf rest si
      else if negb (Byte.eqb c StdPadding) then
        Return rest si (Some (CorruptInputError (si - 1)))
      else
        match j with
        | 0%nat | 1%nat => Return rest si (Some (CorruptInputError (si - 1)))
        | 2%nat =>
            let '(rest1, si1) := skipNewlines rest si in
            match rest1 with
            | [] => Return [] si1 (Some (CorruptInputError si1))
            | c1 :: rest2 =>
                if negb (Byte.eqb c1 StdPadding) then
                  Return rest1 si1 (Some (CorruptInputError (si1 - 1)))
                else
                  let '(rest3, si3) := skipNewlines rest2 (si1 + 1) in
                  Break j dbuf rest3 si3
                    (match rest3 with
                     | [] => None
                     | _ :: _ => Some (CorruptInputError si3)
                     end)
            end
        | _ =>
            let '(rest3, si3) := skipNewlines rest si in
            Break j dbuf rest3 si3
              (match rest3 with
               | [] => None
               | _ :: _ => Some (CorruptInputError si3)
               end)
        end
  end.

(** [decodeQuantum]: the unread suffix, the new [si], the bytes written to
    [dst] and the error. *)
Definition decodeQuantum (src : list byte) (si : Z)
  : list byte * Z * list byte * option error :=
  match quantumLoop 0 [0; 0; 0; 0] src si with
  | Return rest nsi err => (rest, nsi, [], err)
  | Break dlen dbuf rest nsi err =>
      let val :=
        Z.lor (Z.lor (Z.lor (Z.shiftl (dbuf !!! 0%nat) 18) (Z.shiftl (dbuf !!! 1%nat) 12))
                     (Z.shiftl (dbuf !!! 2%nat) 6))
              (dbuf !!! 3%nat) in
      let b2 := to_byte (Z.shiftr val 0) in
      let b1 := to_byte (Z.shiftr val 8) in
      let b0 := to_byte (Z.shiftr val 16) in
      let out :=
        match dlen with
        | 4%nat => [b0; b1; b2]
        | 3%nat => [b0; b1]
        | 2%nat => [b0]
        | _ => []
        end in
      (rest, nsi, out, err)
  end.

(** The [for si < len(src)] loop of [Decode].  Every call of
    [decodeQuantum] on a non-empty suffix reads at least one byte, so
    [length src] iterations are enough ([decodeLoop_fuel] below).  The two
    loops that [Decode] runs first, on eight and on four characters at a
    time, take a group only when all its characters are in the alphabet and
    then write what [decodeQuantum] writes for it; otherwise they call
    [decodeQuantum] themselves. *)
Fixpoint decodeLoop (fuel : nat) (src : list byte) (si : Z) (dst : list byte)
  : list byte * option error :=
  match src, fuel with
  | [], _ => (dst, None)
  | _, O => (dst, None)
  | _, S fuel' =>
      let '(rest, nsi, out, err) := decodeQuantum src si in
      match err with
      | Some e => (dst ++ out, Some e)
      | None => decodeLoop fuel' rest nsi (dst ++ out)
      end
  end.

Definition Decode (src : list byte) : list byte * option error :=
  decodeLoop (length src) src 0 [].

(** [DecodeString]: [dbuf[:n], err]. *)
Definition DecodeString (s : string) : list byte * option error :=
  Decode (bytes_of_string s).

(** *** Valid base64 text, described without the decoder

    Line breaks (CR, LF) are ignored.  What remains is a sequence of groups
    of four characters of the alphabet, of which the last may instead end
    in one padding character after three characters of the alphabet, or in
    two after two. *)
Definition inAlphabet (c : byte) : bool :=
  existsb (Byte.eqb c) (bytes_of_string encodeStd).

Definition isPadding (c : byte) : bool := Byte.eqb c StdPadding.

Definition stripNewlines (src : list byte) : list byte :=
  List.filter (fun c => negb (isNewline c)) src.

Fixpoint groups (src : list byte) : bool :=
  match src with
  | [] => true
  | [a; b; c; d] =>
      inAlphabet a && inAlphabet b
      && ((inAlphabet c && (inAlphabet d || isPadding d))
          || (isPadding c && isPadding d))
  | a :: b :: c :: d :: rest =>
      inAlphabet a && inAlphabet b && inAlphabet c && inAlphabet d && groups rest
  | _ => false
  end.

Definition valid_base64 (s : string) : Prop :=
  groups (stripNewlines (bytes_of_string s)) = true.

(** The same language read one character at a time, [j] being the position
    in the current group. *)
Fixpoint wellformed (j : nat) (src : list byte) : bool :=
  match src with
  | [] => (j =? 0)%nat || (4 <=? j)%nat
  | c :: rest =>
      let j := if (4 <=? j)%nat then 0%nat else j in
      if inAlphabet c then wellformed (S j) rest
      else if isPadding c then
        match j with
        | 2%nat => match rest with [p] => isPadding p | _ => false end
        | 3%nat => match rest with [] => true | _ => false end
        | _ => false
        end
      else false
  end.

(** Two exits of the loop that differ in positions only, the second being
    that on the text without line breaks. *)
Definition same_exit (e e' : loopExit) : Prop :=
  match e, e' with
  | Return r _ err, Return r' _ err' =>
      (err = None <-> err' = None) /\ (err = None -> r = [] /\ r' = [])
  | Break d b r _ err, Break d' b' r' _ err' =>
      d = d' /\ b = b' /\ (err = None <-> err' = None) /\ stripNewlines r = r'
  | _, _ => False
  end.

(** The position in [src] at which the loop is left. *)
Definition exit_si (e : loopExit) : Z :=
  match e with
  | Return _ si _ => si
  | Break _ _ _ si _ => si
  end.

End base64.

(** ** Dynamic values and the Vault client

    [interface{}] values as they occur in a KV record ([DComposite] stands
    for lists and nested maps), and the type assertion [v.(string)] in its
    two-result form.  A key that is absent from a Go map reads as the nil
    interface, for which the assertion fails. *)
Inductive dyn : Type :=
| DNil
| DString (s : string)
| DBool (b : bool)
| DNumber (n : Z)
| DComposite.

Definition assert_string (v : option dyn) : string * bool :=
  match v with
  | Some (DString s) => (s, true)
  | _ => ("", false)
  end.

(** [vault.Client], [auth.KubernetesAuth], the [vault.Secret] returned by a
    login and [vault.KVSecret], reduced to what the adapter touches. *)
Record Client : Type := mkClient { clientAddress : string }.
Record KubernetesAuth : Type := mkKubernetesAuth { roleName : string }.
Record Secret : Type := mkSecret { clientToken : string }.
Record KVSecret : Type := mkKVSecret { Data : gmap string dyn }.

(** The calls the adapter makes into the Vault libraries, and the type of
    the answer to each.  A Go result pair [(v, err)] of which the code only
    reads [v] after [err == nil] is a sum; [Login] keeps both components, as
    [newVault] tests [authInfo == nil] on its own.  [KVv2.Get] never returns
    a nil secret with a nil error.  The [context.Context] argument is only
    passed through and is left out. *)
Inductive request : Type :=
| NewClient (address : string)
| NewKubernetesAuth (role : string)
| Login (c : Client) (a : KubernetesAuth)
| KVPut (c : Client) (mount path : string) (data : gmap string dyn)
| KVGet (c : Client) (mount path : string).

Definition answer (r : request) : Type :=
  match r with
  | NewClient _ => (error + Client)%type
  | NewKubernetesAuth _ => (error + KubernetesAuth)%type
  | Login _ _ => (option Secret * option error)%type
  | KVPut _ _ _ _ => option error
  | KVGet _ _ _ => (error + KVSecret)%type
  end.

(** Programs over these calls. *)
Inductive prog (A : Type) : Type :=
| Ret (a : A)
| Vis (r : request) (k : answer r -> prog A).
Arguments Ret {A} a.
Arguments Vis {A} r k.

Fixpoint bind {A B : Type} (p : prog A) (f : A -> prog B) : prog B :=
  match p with
  | Ret a => f a
  | Vis r k => Vis r (fun x => bind (k x) f)
  end.

Definition trigger (r : request) : prog (answer r) := Vis r Ret.

Notation "x <- c ;; k" := (bind c (fun x => k))
  (at level 100, c at next level, right associativity).

(** An environment answers every call from its state; [exec] runs a program
    against it and records the calls made, in order. *)
Definition handler (S : Type) : Type := forall r : request, S -> answer r * S.

Fixpoint exec {S A : Type} (h : handler S) (p : prog A) (s : S)
  : A * S * list request :=
  match p with
  | Ret a => (a, s, [])
  | Vis r k =>
      let '(x, s1) := h r s in
      let '(a, s2, log) := exec h (k x) s1 in
      (a, s2, r :: log)
  end.

(** ** The adapter *)

Definition DefaultVaultKVSecretPath : string := "kube/fr/secret".
Definition DefaultVaultAddress : string := "http://vault-active.vault.svc.cluster.local:8200".
Definition DefaultVaultKubeRoleName : string := "fr-secret-agent".
Definition DefaultSecretKey : string := "value".
Definition DefaultKVMount : string := "secret".

(** The fields of [v1alpha1.AppConfig] that [newVault] reads. *)
Record AppConfig : Type := mkAppConfig {
  VaultAddress : string;
  VaultKubeRole : string;
  VaultKVSecretPath : string;
  VaultKVMount : string
}.

Record secretManagerVault : Type := mkSecretManagerVault {
  secretPath : string;
  kvMount : string;
  vaultClient : Client
}.

(** [newVault]; [nil] results are [None]. *)
Definition newVault (cfg : AppConfig) : prog (option secretManagerVault * option error) :=
  let vaultAddr :=
    if negb (String.eqb (VaultAddress cfg) "") then VaultAddress cfg else DefaultVaultAddress in
  let vaultRole :=
    if negb (String.eqb (VaultKubeRole cfg) "") then VaultKubeRole cfg else DefaultVaultKubeRoleName in
  let vaultSecretPath :=
    if negb (String.eqb (VaultKVSecretPath cfg) "") then VaultKVSecretPath cfg
    else DefaultVaultKVSecretPath in
  let vaultKVMount :=
    if negb (String.eqb (VaultKVMount cfg) "") then VaultKVMount cfg else DefaultKVMount in
  r <- trigger (NewClient vaultAddr) ;;
  match r with
  | inl err => Ret (None, Some (Errorf_w "Vault: unable to initialize Vault client: " err))
  | inr client =>
      r <- trigger (NewKubernetesAuth vaultRole) ;;
      match r with
      | inl err =>
          Ret (None, Some (Errorf_w "Vault: unable to initialize Kubernetes auth method: " err))
      | inr k8sAuth =>
          r <- trigger (Login client k8sAuth) ;;
          let '(authInfo, err) := r in
          match err with
          | Some err =>
              Ret (None, Some (Errorf_w "Vault: unable to log in with Kubernetes auth: " err))
          | None =>
              match authInfo with
              | None => Ret (None, Some (Errorf "Vault: no auth info was returned after login"))
              | Some _ =>
                  Ret (Some {| vaultClient := client;
                               secretPath := vaultSecretPath;
                               kvMount := vaultKVMount |}, None)
              end
          end
      end
  end.

Section Adapter.

(** The secret-type tags [TypeKeystore], [TypePEM] and [TypePassword] are
    declared in another file of the package; the adapter only compares
    against them. *)
Variables TypeKeystore TypePEM TypePassword : string.

(** [fmt.Sprintf("%s/%s", vm.secretPath, secretName)] *)
Definition getSecretPath (vm : secretManagerVault) (secretName : string) : string :=
  String.append (secretPath vm) (String.append "/" secretName).

Definition getSecretStrValue (vm : secretManagerVault) (data : list byte)
    (secretType : string) : string :=
  if String.eqb secretType TypeKeystore then base64.EncodeToString data
  else if String.eqb secretType TypePEM then string_of_bytes data
  else if String.eqb secretType TypePassword then string_of_bytes data
  else base64.EncodeToString data.

Definition getSecretByteValue (vm : secretManagerVault) (data secretType : string)
  : list byte * option error :=
  if String.eqb secretType TypeKeystore then base64.DecodeString data
  else if String.eqb secretType TypePEM then (bytes_of_string data, None)
  else if String.eqb secretType TypePassword then (bytes_of_string data, None)
  else base64.DecodeString data.

Definition EnsureSecret (vm : secretManagerVault) (secretName : string)
    (value : list byte) (secretType : string) : prog (option error) :=
  let secretValue := getSecretStrValue vm value secretType in
  let payload : gmap string dyn :=
    <[DefaultSecretKey := DString secretValue]>
      (<["secret_type" := DString secretType]> ∅) in
  let path := getSecretPath vm secretName in
  err <- trigger (KVPut (vaultClient vm) (kvMount vm) path payload) ;;
  match err with
  | Some err => Ret (Some (WithStack err))
  | None => Ret None
  end.

Definition LoadSecret (vm : secretManagerVault) (secretName secretType : string)
  : prog (list byte * option error) :=
  let path := getSecretPath vm secretName in
  r <- trigger (KVGet (vaultClient vm) (kvMount vm) path) ;;
  match r with
  | inl err => Ret ([], None)
  | inr secret =>
      let '(value, ok) := assert_string (Data secret !! DefaultSecretKey) in
      if negb ok then Ret ([], None)
      else Ret (getSecretByteValue vm value secretType)
  end.

(** [CloseClient] does nothing. *)
Definition CloseClient (vm : secretManagerVault) : prog unit := Ret tt.

(** A tag that none of the three cases of the switch matches. *)
Definition unrecognized (secretType : string) : Prop :=
  secretType <> TypeKeystore /\ secretType <> TypePEM /\ secretType <> TypePassword.

End Adapter.

(** ** A Vault server kept in memory

    The KV v2 engine as a map from (mount, path) to the record last written
    there: a write replaces the record, a read of a path never written
    fails.  Client construction and login always succeed. *)
Abbreviation kvStore := (gmap (string * string) (gmap string dyn)).

Definition memVault : handler kvStore :=
  fun r =>
    match r as r return kvStore -> answer r * kvStore with
    | NewClient address => fun st => (inr (mkClient address), st)
    | NewKubernetesAuth role => fun st => (inr (mkKubernetesAuth role), st)
    | Login c a => fun st => ((Some (mkSecret "token"), None), st)
    | KVPut c mount path data => fun st => (None, <[(mount, path) := data]> st)
    | KVGet c mount path => fun st =>
        match st !! (mount, path) with
        | Some data => (inr (mkKVSecret data), st)
        | None => (inl (ExternalError "secret not found"), st)
        end
    end.

(** The kinds of failure of the bootstrap: building the transport client,
    building the auth method, the login exchange, a login without session. *)
Inductive failure_mode : Type :=
| ModeClient
| ModeAuth
| ModeLogin
| ModeSession.

(** A server on which the bootstrap runs into the given kind of failure;
    its KV engine is that of [memVault]. *)
Definition faultyVault (m : failure_mode) : handler kvStore :=
  fun r =>
    match r as r return kvStore -> answer r * kvStore with
    | NewClient address => fun st =>
        (match m with
         | ModeClient => inl (ExternalError "invalid address")
         | _ => inr (mkClient address)
         end, st)
    | NewKubernetesAuth role => fun st =>
        (match m with
         | ModeAuth => inl (ExternalError "no role name was provided")
         | _ => inr (mkKubernetesAuth role)
         end, st)
    | Login c a => fun st =>
        (match m with
         | ModeLogin => (None, Some (ExternalError "permission denied"))
         | ModeSession => (None, None)
         | _ => (Some (mkSecret "token"), None)
         end, st)
    | KVPut c mount path data => memVault (KVPut c mount path data)
    | KVGet c mount path => memVault (KVGet c mount path)
    end.

(** A server that cannot be reached: every call fails. *)
Definition downVault : handler unit :=
  fun r =>
    match r as r return unit -> answer r * unit with
    | NewClient _ => fun st => (inl (ExternalError "connection refused"), st)
    | NewKubernetesAuth _ => fun st => (inl (ExternalError "connection refused"), st)
    | Login _ _ => fun st => ((None, Some (ExternalError "connection refused")), st)
    | KVPut _ _ _ _ => fun st => (Some (ExternalError "connection refused"), st)
    | KVGet _ _ _ => fun st => (inl (ExternalError "connection refused"), st)
    end.

(** The handle that the bootstrap returns for the empty configuration. *)
Definition defaultHandle : secretManagerVault :=
  {| secretPath := DefaultVaultKVSecretPath;
     kvMount := DefaultKVMount;
     vaultClient := mkClient DefaultVaultAddress |}.

(** ** The bootstrap in the words of its specification

    Override or default: a non-empty override is used verbatim, an unset
    (empty) field takes the default. *)
Definition override_or_default (override default : string) : string :=
  match override with
  | EmptyString => default
  | String _ _ => override
  end.

(** The four ways the bootstrap can fail, with the underlying error where
    there is one, and the error [newVault] reports for each. *)
Inductive failure : Type :=
| ClientConstruction (err : error)
| AuthConstruction (err : error)
| LoginExchange (err : error)
| EmptySession.

Definition mode_of (f : failure) : failure_mode :=
  match f with
  | ClientConstruction _ => ModeClient
  | AuthConstruction _ => ModeAuth
  | LoginExchange _ => ModeLogin
  | EmptySession => ModeSession
  end.

Definition failure_error (f : failure) : error :=
  match f with
  | ClientConstruction err => Errorf_w "Vault: unable to initialize Vault client: " err
  | AuthConstruction err => Errorf_w "Vault: unable to initialize Kubernetes auth method: " err
  | LoginExchange err => Errorf_w "Vault: unable to log in with Kubernetes auth: " err
  | EmptySession => Errorf "Vault: no auth info was returned after login"
  end.

(** [bootstrap_fails h cfg s f]: bootstrapping from [cfg] against the
    environment [h] in state [s] runs into the failure [f]. *)
Inductive bootstrap_fails {S : Type} (h : handler S) (cfg : AppConfig) (s : S)
  : failure -> Prop :=
| fails_client (err : error) :
    fst (h (NewClient (override_or_default (VaultAddress cfg) DefaultVaultAddress)) s)
    = inl err ->
    bootstrap_fails h cfg s (ClientConstruction err)
| fails_auth (c : Client) (s1 : S) (err : error) :
    h (NewClient (override_or_default (VaultAddress cfg) DefaultVaultAddress)) s
    = (inr c, s1) ->
    fst (h (NewKubernetesAuth
              (override_or_default (VaultKubeRole cfg) DefaultVaultKubeRoleName)) s1)
    = inl err ->
    bootstrap_fails h cfg s (AuthConstruction err)
| fails_login (c : Client) (s1 : S) (a : KubernetesAuth) (s2 : S)
    (authInfo : option Secret) (err : error) :
    h (NewClient (override_or_default (VaultAddress cfg) DefaultVaultAddress)) s
    = (inr c, s1) ->
    h (NewKubernetesAuth
         (override_or_default (VaultKubeRole cfg) DefaultVaultKubeRoleName)) s1
    = (inr a, s2) ->
    fst (h (Login c a) s2) = (authInfo, Some err) ->
    bootstrap_fails h cfg s (LoginExchange err)
| fails_session (c : Client) (s1 : S) (a : KubernetesAuth) (s2 : S) :
    h (NewClient (override_or_default (VaultAddress cfg) DefaultVaultAddress)) s
    = (inr c, s1) ->
    h (NewKubernetesAuth
         (override_or_default (VaultKubeRole cfg) DefaultVaultKubeRoleName)) s1
    = (inr a, s2) ->
    fst (h (Login c a) s2) = (None, None) ->
    bootstrap_fails h cfg s EmptySession.

(** * Properties *)

(** ** Bit operations as arithmetic *)

Ltac pow2_lia :=
  change (2 ^ 0) with 1 in *; change (2 ^ 6) with 64 in *; change (2 ^ 8) with 256 in *;
  change (2 ^ 12) with 4096 in *; change (2 ^ 16) with 65536 in *;
  change (2 ^ 18) with 262144 in *;
  Z.div_mod_to_equations; lia.

Section Bits.

Lemma land_shiftl_low (x y k : Z) :
  0 <= k -> 0 <= y < 2 ^ k -> Z.land (Z.shiftl x k) y = 0.
Proof.
  intros Hk Hy. apply Z.bits_inj'. intros n Hn.
  rewrite Z.land_spec, Z.bits_0.
  destruct (Z.lt_ge_cases n k) as [Hlt | Hge].
  - rewrite Z.shiftl_spec_low by assumption. reflexivity.
  - rewrite <- (Z.mod_small y (2 ^ k)) by assumption.
    rewrite Z.mod_pow2_bits_high by lia. apply andb_false_r.
Qed.

Lemma lor_shiftl_add (x y k : Z) :
  0 <= k -> 0 <= y < 2 ^ k -> Z.lor (Z.shiftl x k) y = x * 2 ^ k + y.
Proof.
  intros Hk Hy.
  pose proof (Z.add_lor_land (Z.shiftl x k) y) as H.
  rewrite land_shiftl_low in H by assumption.
  rewrite Z.shiftl_mul_pow2 in * by assumption. lia.
Qed.

Lemma lor_add (x y k : Z) :
  0 <= k -> x mod 2 ^ k = 0 -> 0 <= y < 2 ^ k -> Z.lor x y = x + y.
Proof.
  intros Hk Hx Hy.
  assert (Hx' : x = Z.shiftl (x / 2 ^ k) k).
  { rewrite Z.shiftl_mul_pow2 by assumption.
    pose proof (Z.div_mod x (2 ^ k)). lia. }
  rewrite Hx' at 1. rewrite lor_shiftl_add by assumption.
  pose proof (Z.div_mod x (2 ^ k)). lia.
Qed.

Lemma sextet_spec (v k : Z) :
  0 <= k -> Z.land (Z.shiftr v k) 63 = (v / 2 ^ k) mod 64.
Proof.
  intros Hk. change 63 with (Z.ones 6).
  rewrite Z.land_ones by lia. rewrite Z.shiftr_div_pow2 by assumption.
  reflexivity.
Qed.

Lemma land63 (v : Z) : Z.land v 63 = v mod 64.
Proof. change 63 with (Z.ones 6). rewrite Z.land_ones by lia. reflexivity. Qed.

Lemma uint_range (b : byte) : 0 <= uint b < 256.
Proof.
  unfold uint. pose proof (Byte.to_N_bounded b). lia.
Qed.

Lemma to_byte_uint (v : Z) (b : byte) : v mod 256 = uint b -> to_byte v = b.
Proof.
  intros H. unfold to_byte, uint in *. rewrite H, N2Z.id, Byte.of_to_N.
  reflexivity.
Qed.

(** The value assembled from three source bytes. *)
Lemma pack3 (a b c : Z) :
  0 <= a < 256 -> 0 <= b < 256 -> 0 <= c < 256 ->
  Z.lor (Z.lor (Z.shiftl a 16) (Z.shiftl b 8)) c = a * 65536 + b * 256 + c.
Proof.
  intros Ha Hb Hc.
  rewrite (Z.shiftl_mul_pow2 b 8) by pow2_lia.
  rewrite (lor_shiftl_add a (b * 2 ^ 8) 16) by pow2_lia.
  rewrite (lor_add _ c 8) by pow2_lia. pow2_lia.
Qed.

Lemma pack2 (a b : Z) :
  0 <= a < 256 -> 0 <= b < 256 ->
  Z.lor (Z.shiftl a 16) (Z.shiftl b 8) = a * 65536 + b * 256.
Proof.
  intros Ha Hb.
  rewrite (Z.shiftl_mul_pow2 b 8) by pow2_lia.
  rewrite (lor_shiftl_add a (b * 2 ^ 8) 16) by pow2_lia. pow2_lia.
Qed.

(** The value assembled from four decoded sextets. *)
Lemma pack4 (d0 d1 d2 d3 : Z) :
  0 <= d0 < 64 -> 0 <= d1 < 64 -> 0 <= d2 < 64 -> 0 <= d3 < 64 ->
  Z.lor (Z.lor (Z.lor (Z.shiftl d0 18) (Z.shiftl d1 12)) (Z.shiftl d2 6)) d3
  = d0 * 262144 + d1 * 4096 + d2 * 64 + d3.
Proof.
  intros H0 H1 H2 H3.
  rewrite (Z.shiftl_mul_pow2 d1 12), (Z.shiftl_mul_pow2 d2 6) by pow2_lia.
  rewrite (lor_shiftl_add d0 (d1 * 2 ^ 12) 18) by pow2_lia.
  rewrite (lor_add _ (d2 * 2 ^ 6) 12) by pow2_lia.
  rewrite (lor_add _ d3 6) by pow2_lia. pow2_lia.
Qed.

End Bits.

(** ** base64: decoding what was encoded *)
Module base64_facts.
Import base64.

Lemma decodeMap_encode (i : Z) : 0 <= i < 64 -> decodeMap (encode i) = i.
Proof.
  intros Hi.
  assert (H : forallb (fun n => Z.eqb (decodeMap (encode (Z.of_nat n))) (Z.of_nat n))
                (seq 0 64) = true) by (vm_compute; reflexivity).
  rewrite forallb_forall in H. specialize (H (Z.to_nat i)).
  rewrite Z2Nat.id in H by lia. apply Z.eqb_eq, H, in_seq. lia.
Qed.

Lemma quantumLoop_full (dbuf : list Z) (src : list byte) (si : Z) :
  quantumLoop 4 dbuf src si = Break 4 dbuf src si None.
Proof. destruct src; reflexivity. Qed.

Lemma quantumLoop_valid (j : nat) (dbuf : list Z) (i : Z) (rest : list byte) (si : Z) :
  (j < 4)%nat -> 0 <= i < 64 ->
  quantumLoop j dbuf (encode i :: rest) si
  = quantumLoop (S j) (<[j:=i]> dbuf) rest (si + 1).
Proof.
  intros Hj Hi.
  assert (Hne : Z.eqb i 255 = false) by (apply Z.eqb_neq; lia).
  destruct j as [|[|[|[|j]]]]; try lia;
    cbn [quantumLoop Nat.leb]; cbv zeta;
    rewrite (decodeMap_encode i Hi), Hne; reflexivity.
Qed.

Lemma sextet_range (v k : Z) : 0 <= k -> 0 <= Z.land (Z.shiftr v k) 63 < 64.
Proof. intros Hk. rewrite sextet_spec by assumption. apply Z.mod_pos_bound. lia. Qed.

Lemma decodeLoop_nil (fuel : nat) (si : Z) (dst : list byte) :
  decodeLoop fuel [] si dst = (dst, None).
Proof. destruct fuel; reflexivity. Qed.

(** *** Every call of [decodeQuantum] consumes input, so the fuel of
    [decodeLoop] never runs out *)

Lemma skipNewlines_length (src : list byte) (si : Z) :
  (length (fst (skipNewlines src si)) <= length src)%nat.
Proof.
  revert si. induction src as [|c rest IH]; intros si; cbn [skipNewlines].
  - cbn. lia.
  - destruct (isNewline c); [specialize (IH (si + 1)); cbn [length]; lia|].
    cbn. lia.
Qed.

Lemma quantumLoop_rest (src : list byte) :
  forall (j : nat) (dbuf : list Z) (si : Z),
    (length (exit_rest (quantumLoop j dbuf src si)) <= length src)%nat
    /\ ((j < 4)%nat -> src <> [] ->
        (length (exit_rest (quantumLoop j dbuf src si)) < length src)%nat).
Proof.
  induction src as [|c rest IH]; intros j dbuf si.
  - split; [|intros _ H; contradiction].
    cbn [quantumLoop]. destruct (4 <=? j)%nat, (j =? 0)%nat; cbn; lia.
  - assert (Hstep : (j < 4)%nat ->
              (length (exit_rest (quantumLoop j dbuf (c :: rest) si)) <= length rest)%nat).
    { intros Hj. cbn [quantumLoop].
      destruct (Nat.leb_spec 4 j) as [|_]; [lia|]. cbv zeta.
      destruct (negb (decodeMap c =? 255)); [apply IH|].
      destruct (isNewline c); [apply IH|].
      destruct (negb (Byte.eqb c StdPadding)); [cbn; lia|].
      destruct j as [|[|[|j]]]; try (cbn; lia).
      - pose proof (skipNewlines_length rest (si + 1)) as H1.
        destruct (skipNewlines rest (si + 1)) as [rest1 si1]. cbn [fst] in H1.
        destruct rest1 as [|c1 rest2]; [cbn; lia|].
        destruct (negb (Byte.eqb c1 StdPadding)); [cbn [exit_rest]; lia|].
        pose proof (skipNewlines_length rest2 (si1 + 1)) as H2.
        destruct (skipNewlines rest2 (si1 + 1)) as [rest3 si3]. cbn [fst] in H2.
        cbn [exit_rest length] in *. lia.
      - pose proof (skipNewlines_length rest (si + 1)) as H1.
        destruct (skipNewlines rest (si + 1)) as [rest3 si3]. cbn [fst] in H1.
        cbn [exit_rest]. lia. }
    split.
    + destruct (Nat.lt_ge_cases j 4) as [Hj | Hj].
      * specialize (Hstep Hj). cbn [length]. lia.
      * cbn [quantumLoop]. destruct (Nat.leb_spec 4 j) as [_|]; [|lia]. cbn. lia.
    + intros Hj _. specialize (Hstep Hj). cbn [length]. lia.
Qed.

Lemma decodeQuantum_rest (src : list byte) (si : Z) :
  src <> [] ->
  (length (fst (fst (fst (decodeQuantum src si)))) < length src)%nat.
Proof.
  intros Hsrc. unfold decodeQuantum.
  pose proof (proj2 (quantumLoop_rest src 0 [0; 0; 0; 0] si)) as H.
  destruct (quantumLoop 0 [0; 0; 0; 0] src si); cbn [fst exit_rest] in *;
    apply H; [lia | assumption | lia | assumption].
Qed.

(** Any two amounts of fuel that are at least the length of the input give
    the same result. *)
Lemma decodeLoop_fuel (n : nat) :
  forall (src : list byte), (length src <= n)%nat ->
  forall (fuel1 fuel2 : nat) (si : Z) (dst : list byte),
    (length src <= fuel1)%nat -> (length src <= fuel2)%nat ->
    decodeLoop fuel1 src si dst = decodeLoop fuel2 src si dst.
Proof.
  induction n as [|n IH]; intros [|c rest] Hn fuel1 fuel2 si dst H1 H2;
    cbn [length] in *; try lia.
  - destruct fuel1, fuel2; reflexivity.
  - destruct fuel1, fuel2; reflexivity.
  - destruct fuel1 as [|fuel1], fuel2 as [|fuel2]; try lia.
    cbn [decodeLoop].
    pose proof (decodeQuantum_rest (c :: rest) si) as Hrest.
    destruct (decodeQuantum (c :: rest) si) as [[[rest' nsi] out] [e|]];
      [reflexivity|].
    cbn [fst length] in Hrest.
    assert ((length rest' < S (length rest))%nat) by (apply Hrest; discriminate).
    apply IH; lia.
Qed.

Lemma Decode_fuel (src : list byte) (fuel : nat) :
  (length src <= fuel)%nat -> decodeLoop fuel src 0 [] = Decode src.
Proof.
  intros H. apply (decodeLoop_fuel (length src)); lia.
Qed.

(** *** The decoder accepts exactly the valid texts *)

Lemma inAlphabet_decodeMap (c : byte) : negb (decodeMap c =? 255) = inAlphabet c.
Proof. destruct c; reflexivity. Qed.

Lemma inAlphabet_isNewline (c : byte) : inAlphabet c = true -> isNewline c = false.
Proof. destruct c; cbn; intros H; try reflexivity; discriminate H. Qed.

Lemma isPadding_isNewline (c : byte) : isPadding c = true -> isNewline c = false.
Proof. destruct c; cbn; intros H; try reflexivity; discriminate H. Qed.

Lemma isPadding_inAlphabet (c : byte) : isPadding c = true -> inAlphabet c = false.
Proof. destruct c; cbn; intros H; try reflexivity; discriminate H. Qed.

Lemma stripNewlines_cons (c : byte) (src : list byte) :
  isNewline c = false -> stripNewlines (c :: src) = c :: stripNewlines src.
Proof. intros H. unfold stripNewlines. cbn [List.filter]. rewrite H. reflexivity. Qed.

Lemma stripNewlines_newline (c : byte) (src : list byte) :
  isNewline c = true -> stripNewlines (c :: src) = stripNewlines src.
Proof. intros H. unfold stripNewlines. cbn [List.filter]. rewrite H. reflexivity. Qed.

Lemma skipNewlines_strip (src : list byte) (si : Z) :
  stripNewlines (fst (skipNewlines src si)) = stripNewlines src
  /\ (fst (skipNewlines src si) = []
      \/ exists (c : byte) (rest : list byte),
           fst (skipNewlines src si) = c :: rest /\ isNewline c = false).
Proof.
  revert si. induction src as [|c rest IH]; intros si; cbn [skipNewlines].
  - split; [reflexivity | left; reflexivity].
  - destruct (isNewline c) eqn:E.
    + rewrite stripNewlines_newline by assumption. apply IH.
    + split; [reflexivity | right; exists c, rest; split; [reflexivity | assumption]].
Qed.

Lemma wellformed_full (j : nat) (src : list byte) :
  (4 <= j)%nat -> wellformed j src = wellformed 0 src.
Proof.
  intros Hj. destruct src as [|c rest]; cbn [wellformed].
  - destruct (Nat.leb_spec 4 j); [|lia]. rewrite orb_true_r. reflexivity.
  - destruct (Nat.leb_spec 4 j); [|lia]. reflexivity.
Qed.

(** The loop of [decodeQuantum] at position [j] on [src]: it fails, or it
    leaves a rest, exactly as the text read from position [j] is well-formed
    up to that rest. *)
Lemma quantumLoop_wellformed (src : list byte) :
  forall (j : nat) (dbuf : list Z) (si : Z),
    wellformed j (stripNewlines src)
    = match exit_err (quantumLoop j dbuf src si) with
      | Some _ => false
      | None => wellformed 0 (stripNewlines (exit_rest (quantumLoop j dbuf src si)))
      end.
Proof.
  induction src as [|c rest IH]; intros j dbuf si.
  - cbn [quantumLoop stripNewlines List.filter wellformed].
    destruct (Nat.leb_spec 4 j) as [Hj | Hj]; cbn [exit_err exit_rest].
    + rewrite orb_true_r. reflexivity.
    + rewrite orb_false_r. destruct j; reflexivity.
  - cbn [quantumLoop].
    destruct (Nat.leb_spec 4 j) as [Hj | Hj]; cbn [exit_err exit_rest].
    + apply wellformed_full. assumption.
    + cbv zeta. rewrite inAlphabet_decodeMap.
      destruct (inAlphabet c) eqn:Ea.
      { rewrite stripNewlines_cons by (apply inAlphabet_isNewline; assumption).
        cbn [wellformed]. destruct (Nat.leb_spec 4 j); [lia|].
        rewrite Ea. apply IH. }
      destruct (isNewline c) eqn:En.
      { rewrite stripNewlines_newline by assumption. apply IH. }
      rewrite stripNewlines_cons by assumption.
      cbn [wellformed]. destruct (Nat.leb_spec 4 j); [lia|]. rewrite Ea.
      change (Byte.eqb c StdPadding) with (isPadding c).
      destruct (isPadding c) eqn:Ep; cbn [negb exit_err exit_rest]; [|reflexivity].
      destruct j as [|[|[|[|j]]]]; try reflexivity.
      * destruct (skipNewlines_strip rest (si + 1)) as [Hs Hhead].
        destruct (skipNewlines rest (si + 1)) as [rest1 si1]. cbn [fst] in *.
        rewrite <- Hs.
        destruct Hhead as [-> | (c1 & rest2 & -> & En1)]; [reflexivity|].
        rewrite stripNewlines_cons by assumption.
        change (Byte.eqb c1 StdPadding) with (isPadding c1).
        destruct (isPadding c1) eqn:Ep1; cbn [negb exit_err exit_rest].
        -- destruct (skipNewlines_strip rest2 (si1 + 1)) as [Hs2 Hhead2].
           destruct (skipNewlines rest2 (si1 + 1)) as [rest3 si3]. cbn [fst] in *.
           rewrite <- Hs2.
           destruct Hhead2 as [-> | (c3 & rest4 & -> & En3)]; [reflexivity|].
           rewrite stripNewlines_cons by assumption. reflexivity.
        -- destruct (stripNewlines rest2); reflexivity.
      * destruct (skipNewlines_strip rest (si + 1)) as [Hs Hhead].
        destruct (skipNewlines rest (si + 1)) as [rest3 si3]. cbn [fst] in *.
        rewrite <- Hs.
        destruct Hhead as [-> | (c3 & rest4 & -> & En3)]; [reflexivity|].
        rewrite stripNewlines_cons by assumption. reflexivity.
      * lia.
Qed.

Lemma decodeLoop_wellformed (n : nat) :
  forall (src : list byte), (length src <= n)%nat ->
  forall (fuel : nat) (si : Z) (dst : list byte),
    (length src <= fuel)%nat ->
    wellformed 0 (stripNewlines src)
    = match snd (decodeLoop fuel src si dst) with Some _ => false | None => true end.
Proof.
  induction n as [|n IH]; intros [|c rest] Hn fuel si dst Hfuel;
    cbn [length] in *; try lia.
  - rewrite decodeLoop_nil. reflexivity.
  - rewrite decodeLoop_nil. reflexivity.
  - destruct fuel as [|fuel]; [lia|]. cbn [decodeLoop].
    pose proof (decodeQuantum_rest (c :: rest) si) as Hrest.
    rewrite (quantumLoop_wellformed (c :: rest) 0 [0; 0; 0; 0] si).
    unfold decodeQuantum in *.
    destruct (quantumLoop 0 [0; 0; 0; 0] (c :: rest) si) as [r nsi err | dlen dbuf r nsi err];
      cbn [fst exit_err exit_rest length] in *.
    + destruct err; cbn [snd]; [reflexivity|].
      assert ((length r < S (length rest))%nat) by (apply Hrest; discriminate).
      apply IH; lia.
    + destruct err; cbn [snd]; [reflexivity|].
      assert ((length r < S (length rest))%nat) by (apply Hrest; discriminate).
      apply IH; lia.
Qed.

(** Reading character by character and reading group by group agree. *)
Lemma wellformed_groups (n : nat) :
  forall (src : list byte), (length src <= n)%nat -> wellformed 0 src = groups src.
Proof.
  induction n as [|n IH]; intros src Hn.
  - destruct src; [reflexivity | cbn [length] in Hn; lia].
  - destruct src as [|a [|b [|c [|d rest]]]]; try reflexivity.
    + cbn [wellformed groups Nat.leb Nat.eqb orb andb].
      destruct (inAlphabet a), (isPadding a); reflexivity.
    + cbn [wellformed groups Nat.leb Nat.eqb orb andb].
      destruct (inAlphabet a), (isPadding a), (inAlphabet b), (isPadding b);
        reflexivity.
    + cbn [wellformed groups Nat.leb Nat.eqb orb andb].
      destruct (inAlphabet a), (isPadding a), (inAlphabet b), (isPadding b);
        try reflexivity; destruct (inAlphabet c), (isPadding c); reflexivity.
    + pose proof (isPadding_inAlphabet c) as Hc.
      pose proof (isPadding_inAlphabet d) as Hd.
      destruct rest as [|e rest].
      * cbn [wellformed groups Nat.leb Nat.eqb orb andb].
        destruct (inAlphabet a); cbn [andb]; [|destruct (isPadding a); reflexivity].
        destruct (inAlphabet b); cbn [andb]; [|destruct (isPadding b); reflexivity].
        destruct (inAlphabet c), (isPadding c); cbn [andb orb];
          try reflexivity; try (specialize (Hc eq_refl); discriminate);
          destruct (inAlphabet d), (isPadding d); reflexivity.
      * assert (Hrest : wellformed 4 (e :: rest) = groups (e :: rest)).
        { rewrite wellformed_full by lia. apply IH. cbn [length] in *. lia. }
        change (wellformed 0 (a :: b :: c :: d :: e :: rest))
          with (if inAlphabet a then
                  if inAlphabet b then
                    if inAlphabet c then
                      if inAlphabet d then wellformed 4 (e :: rest)
                      else if isPadding d then false else false
                    else if isPadding c then false else false
                  else if isPadding b then false else false
                else if isPadding a then false else false).
        change (groups (a :: b :: c :: d :: e :: rest))
          with (inAlphabet a && inAlphabet b && inAlphabet c && inAlphabet d
                && groups (e :: rest)).
        destruct (inAlphabet a); cbn [andb]; [|destruct (isPadding a); reflexivity].
        destruct (inAlphabet b); cbn [andb]; [|destruct (isPadding b); reflexivity].
        destruct (inAlphabet c); cbn [andb]; [|destruct (isPadding c); reflexivity].
        destruct (inAlphabet d); cbn [andb]; [|destruct (isPadding d); reflexivity].
        exact Hrest.
Qed.

(** [DecodeString] returns no error exactly on the valid texts. *)
Lemma DecodeString_valid (s : string) :
  snd (DecodeString s) = None <-> valid_base64 s.
Proof.
  unfold valid_base64, DecodeString, Decode.
  rewrite <- (wellformed_groups (length (stripNewlines (bytes_of_string s))) _ (le_n _)).
  rewrite (decodeLoop_wellformed (length (bytes_of_string s)) _ (le_n _)
             (length (bytes_of_string s)) 0 [] (le_n _)).
  destruct (snd (decodeLoop _ _ _ _)); split; intros H; try reflexivity; discriminate H.
Qed.

(** One full group: four characters give back the three bytes. *)
Lemma decodeQuantum_group (s0 s1 s2 : byte) (rest : list byte) (si : Z) :
  let val := Z.lor (Z.lor (Z.shiftl (uint s0) 16) (Z.shiftl (uint s1) 8)) (uint s2) in
  decodeQuantum
    (encode (Z.land (Z.shiftr val 18) 63)
     :: encode (Z.land (Z.shiftr val 12) 63)
     :: encode (Z.land (Z.shiftr val 6) 63)
     :: encode (Z.land val 63) :: rest) si
  = (rest, si + 1 + 1 + 1 + 1, [s0; s1; s2], None).
Proof.
  intros val. unfold decodeQuantum.
  assert (H3 : 0 <= Z.land val 63 < 64).
  { rewrite <- (Z.shiftr_0_r val) at 1 2. apply sextet_range. lia. }
  rewrite !quantumLoop_valid, quantumLoop_full
    by (try apply sextet_range; try assumption; lia).
  cbn [insert list_insert lookup_total list_lookup_total].
  rewrite pack4 by (try apply sextet_range; try assumption; lia).
  rewrite !sextet_spec, land63 by lia.
  subst val. rewrite pack3 by apply uint_range.
  pose proof (uint_range s0). pose proof (uint_range s1). pose proof (uint_range s2).
  repeat f_equal; apply to_byte_uint; rewrite Z.shiftr_div_pow2 by lia; pow2_lia.
Qed.

Lemma quantumLoop_pad1 (dbuf : list Z) (si : Z) :
  quantumLoop 3 dbuf [StdPadding] si = Break 3 dbuf [] (si + 1) None.
Proof. reflexivity. Qed.

Lemma quantumLoop_pad2 (dbuf : list Z) (si : Z) :
  quantumLoop 2 dbuf [StdPadding; StdPadding] si = Break 2 dbuf [] (si + 1 + 1) None.
Proof. reflexivity. Qed.

(** A final group of two bytes: three characters and one padding. *)
Lemma decodeQuantum_tail2 (s0 s1 : byte) (si : Z) :
  decodeQuantum (Encode [s0; s1]) si = ([], si + 1 + 1 + 1 + 1, [s0; s1], None).
Proof.
  cbn [Encode]. cbv zeta. unfold decodeQuantum.
  rewrite !quantumLoop_valid, quantumLoop_pad1 by (try apply sextet_range; lia).
  cbn [insert list_insert lookup_total list_lookup_total].
  rewrite pack4 by (try apply sextet_range; lia).
  rewrite !sextet_spec by lia. rewrite pack2 by apply uint_range.
  pose proof (uint_range s0). pose proof (uint_range s1).
  repeat f_equal; apply to_byte_uint; rewrite Z.shiftr_div_pow2 by lia; pow2_lia.
Qed.

(** A final group of one byte: two characters and two paddings. *)
Lemma decodeQuantum_tail1 (s0 : byte) (si : Z) :
  decodeQuantum (Encode [s0]) si = ([], si + 1 + 1 + 1 + 1, [s0], None).
Proof.
  cbn [Encode]. cbv zeta. unfold decodeQuantum.
  rewrite !quantumLoop_valid, quantumLoop_pad2 by (try apply sextet_range; lia).
  cbn [insert list_insert lookup_total list_lookup_total].
  rewrite pack4 by (try apply sextet_range; lia).
  rewrite !sextet_spec by lia. rewrite Z.shiftl_mul_pow2 by lia.
  pose proof (uint_range s0).
  repeat f_equal; apply to_byte_uint; rewrite Z.shiftr_div_pow2 by lia; pow2_lia.
Qed.

Lemma decodeLoop_Encode (n : nat) :
  forall (src : list byte), (length src <= n)%nat ->
  forall (fuel : nat) (si : Z) (dst : list byte),
    (length (Encode src) <= fuel)%nat ->
    decodeLoop fuel (Encode src) si dst = (dst ++ src, None).
Proof.
  induction n as [|n IH]; intros [|s0 [|s1 [|s2 rest]]] Hn fuel si dst Hfuel;
    cbn [length] in Hn; try lia.
  - rewrite decodeLoop_nil, app_nil_r. reflexivity.
  - rewrite decodeLoop_nil, app_nil_r. reflexivity.
  - destruct fuel as [|fuel]; [cbn in Hfuel; lia|].
    change (decodeLoop (S fuel) (Encode [s0]) si dst)
      with (let '(rest, nsi, out, err) := decodeQuantum (Encode [s0]) si in
            match err with
            | Some e => (dst ++ out, Some e)
            | None => decodeLoop fuel rest nsi (dst ++ out)
            end).
    rewrite decodeQuantum_tail1, decodeLoop_nil. reflexivity.
  - destruct fuel as [|fuel]; [cbn in Hfuel; lia|].
    change (decodeLoop (S fuel) (Encode [s0; s1]) si dst)
      with (let '(rest, nsi, out, err) := decodeQuantum (Encode [s0; s1]) si in
            match err with
            | Some e => (dst ++ out, Some e)
            | None => decodeLoop fuel rest nsi (dst ++ out)
            end).
    rewrite decodeQuantum_tail2, decodeLoop_nil. reflexivity.
  - destruct fuel as [|fuel]; [cbn in Hfuel; lia|].
    cbn [Encode] in *. cbv zeta in *. cbn [decodeLoop].
    pose proof (decodeQuantum_group s0 s1 s2 (Encode rest) si) as Hq.
    cbv zeta in Hq. rewrite Hq.
    rewrite IH by (cbn [length] in Hfuel; lia).
    rewrite <- app_assoc. reflexivity.
Qed.

(** [DecodeString (EncodeToString src)] gives back [src] and no error. *)
Lemma DecodeString_EncodeToString (src : list byte) :
  DecodeString (EncodeToString src) = (src, None).
Proof.
  unfold DecodeString, EncodeToString, Decode, bytes_of_string, string_of_bytes.
  rewrite list_byte_of_string_of_list_byte.
  apply (decodeLoop_Encode (length src) src (le_n _)). apply le_n.
Qed.

End base64_facts.

(** ** The adapter *)
Section AdapterFacts.

Variables TypeKeystore TypePEM TypePassword : string.

Ltac unfold_codec := unfold getSecretByteValue, getSecretStrValue.

Abbreviation getSecretStrValue := (getSecretStrValue TypeKeystore TypePEM TypePassword).
Abbreviation getSecretByteValue := (getSecretByteValue TypeKeystore TypePEM TypePassword).
Abbreviation EnsureSecret := (EnsureSecret TypeKeystore TypePEM TypePassword).
Abbreviation LoadSecret := (LoadSecret TypeKeystore TypePEM TypePassword).
Abbreviation unrecognized := (unrecognized TypeKeystore TypePEM TypePassword).

(** What a run of [LoadSecret] amounts to: one read, then a case
    distinction on its answer. *)
Lemma exec_LoadSecret {S : Type} (h : handler S) (s : S)
    (vm : secretManagerVault) (secretName secretType : string) :
  exec h (LoadSecret vm secretName secretType) s
  = let get := KVGet (vaultClient vm) (kvMount vm) (getSecretPath vm secretName) in
    (match fst (h get s) return list byte * option error with
     | inl _ => ([], None)
     | inr secret =>
         match Data secret !! "value" with
         | Some (DString value) => getSecretByteValue vm value secretType
         | _ => ([], None)
         end
     end, snd (h get s), [get]).
Proof.
  unfold LoadSecret, trigger. cbn [bind exec]. cbv zeta.
  destruct (h _ s) as [[err | secret] s1]; cbn; [reflexivity|].
  unfold DefaultSecretKey.
  destruct (Data secret !! "value") as [[]|]; reflexivity.
Qed.

Lemma exec_EnsureSecret {S : Type} (h : handler S) (s : S)
    (vm : secretManagerVault) (secretName : string) (value : list byte)
    (secretType : string) :
  exec h (EnsureSecret vm secretName value secretType) s
  = let put :=
      KVPut (vaultClient vm) (kvMount vm) (getSecretPath vm secretName)
        (<["value" := DString (getSecretStrValue vm value secretType)]>
           (<["secret_type" := DString secretType]> ∅)) in
    (match fst (h put s) return option error with
     | Some err => Some (WithStack err)
     | None => None
     end, snd (h put s), [put]).
Proof.
  unfold EnsureSecret, trigger. cbn [bind exec]. cbv zeta.
  destruct (h _ s) as [[err|] s1]; reflexivity.
Qed.

(** C1. Round trip: for every payload [P] and every tag [T], decoding with
    [T] the string that the store-time encoding produced with [T] succeeds
    and returns exactly [P]. *)
Theorem getSecretByteValue_getSecretStrValue
    (vm : secretManagerVault) (P : list byte) (T : string) :
  getSecretByteValue vm (getSecretStrValue vm P T) T = (P, None).
Proof.
  unfold_codec.
  destruct (String.eqb T TypeKeystore);
    [apply base64_facts.DecodeString_EncodeToString|].
  destruct (String.eqb T TypePEM);
    [unfold bytes_of_string, string_of_bytes;
     rewrite list_byte_of_string_of_list_byte; reflexivity|].
  destruct (String.eqb T TypePassword);
    [unfold bytes_of_string, string_of_bytes;
     rewrite list_byte_of_string_of_list_byte; reflexivity|].
  apply base64_facts.DecodeString_EncodeToString.
Qed.

(** The read that [LoadSecret] issues. *)
Lemma LoadSecret_hit {S : Type} (h : handler S) (s : S)
    (vm : secretManagerVault) (secretName secretType : string)
    (secret : KVSecret) (value : string) :
  fst (h (KVGet (vaultClient vm) (kvMount vm) (getSecretPath vm secretName)) s) = inr secret ->
  Data secret !! "value" = Some (DString value) ->
  fst (fst (exec h (LoadSecret vm secretName secretType) s))
  = getSecretByteValue vm value secretType.
Proof.
  intros Hget Hvalue. rewrite exec_LoadSecret. cbn [fst snd].
  rewrite Hget, Hvalue. reflexivity.
Qed.

(** C2. Soft miss: whenever the KV read that [LoadSecret] issues fails, for
    whatever reason, or the record it returns has no "value" field or one
    that is not a string, [LoadSecret] returns an empty byte sequence and no
    error. *)
Theorem LoadSecret_soft_miss {S : Type} (h : handler S) (s : S)
    (vm : secretManagerVault) (secretName secretType : string) :
  (exists err : error,
      fst (h (KVGet (vaultClient vm) (kvMount vm) (getSecretPath vm secretName)) s)
      = inl err)
  \/ (exists secret : KVSecret,
         fst (h (KVGet (vaultClient vm) (kvMount vm) (getSecretPath vm secretName)) s)
         = inr secret
         /\ forall value : string, Data secret !! "value" <> Some (DString value)) ->
  fst (fst (exec h (LoadSecret vm secretName secretType) s)) = ([], None).
Proof.
  intros Hmiss. rewrite exec_LoadSecret. cbn [fst snd].
  destruct Hmiss as [[err Herr] | [secret [Hget Hvalue]]].
  - rewrite Herr. reflexivity.
  - rewrite Hget. destruct (Data secret !! "value") as [[| value | | |]|] eqn:E;
      try reflexivity.
    exfalso. exact (Hvalue value eq_refl).
Qed.

(** C3. Decode failure: when the read returns a record whose "value" field
    is a string that is not valid base64, and the tag is the keystore tag or
    an unrecognized one, [LoadSecret] returns the error of the decoder; its
    result is not the empty success of the soft miss. *)
Theorem LoadSecret_decode_failure {S : Type} (h : handler S) (s : S)
    (vm : secretManagerVault) (secretName secretType : string)
    (secret : KVSecret) (value : string) :
  fst (h (KVGet (vaultClient vm) (kvMount vm) (getSecretPath vm secretName)) s) = inr secret ->
  Data secret !! "value" = Some (DString value) ->
  secretType = TypeKeystore \/ unrecognized secretType ->
  ~ base64.valid_base64 value ->
  exists err : error,
    snd (base64.DecodeString value) = Some err
    /\ snd (fst (fst (exec h (LoadSecret vm secretName secretType) s))) = Some err
    /\ fst (fst (exec h (LoadSecret vm secretName secretType) s)) <> ([], None).
Proof.
  intros Hget Hvalue Htype Hbad.
  rewrite (LoadSecret_hit h s vm secretName secretType secret value Hget Hvalue).
  assert (Hdec : getSecretByteValue vm value secretType = base64.DecodeString value).
  { unfold_codec.
    destruct Htype as [-> | (Hk & Hpem & Hpw)].
    - rewrite String.eqb_refl. reflexivity.
    - apply String.eqb_neq in Hk, Hpem, Hpw. rewrite Hk, Hpem, Hpw. reflexivity. }
  rewrite Hdec.
  pose proof (base64_facts.DecodeString_valid value) as Hvalid.
  destruct (base64.DecodeString value) as [out [err|]] eqn:E.
  - exists err. cbn [snd]. repeat split. discriminate.
  - exfalso. apply Hbad, Hvalid. reflexivity.
Qed.

(** C10. With the PEM or the password tag [LoadSecret] never returns an
    error, whatever the environment answers. *)
Theorem LoadSecret_text_no_error {S : Type} (h : handler S) (s : S)
    (vm : secretManagerVault) (secretName secretType : string) :
  TypePEM <> TypeKeystore -> TypePassword <> TypeKeystore ->
  secretType = TypePEM \/ secretType = TypePassword ->
  snd (fst (fst (exec h (LoadSecret vm secretName secretType) s))) = None.
Proof.
  intros Hpem Hpw Htype. rewrite exec_LoadSecret. cbn [fst snd].
  destruct (fst (h _ s)) as [err | secret]; [reflexivity|].
  destruct (Data secret !! "value") as [[| value | | |]|]; try reflexivity.
  unfold_codec.
  destruct Htype as [-> | ->].
  - apply String.eqb_neq in Hpem. rewrite Hpem, String.eqb_refl. reflexivity.
  - apply String.eqb_neq in Hpw. rewrite Hpw.
    destruct (String.eqb TypePassword TypePEM); [reflexivity|].
    rewrite String.eqb_refl. reflexivity.
Qed.

Lemma getSecretStrValue_keystore (vm : secretManagerVault) (data : list byte) :
  getSecretStrValue vm data TypeKeystore = base64.EncodeToString data.
Proof. unfold_codec. rewrite String.eqb_refl. reflexivity. Qed.

Lemma getSecretByteValue_keystore (vm : secretManagerVault) (data : string) :
  getSecretByteValue vm data TypeKeystore = base64.DecodeString data.
Proof. unfold_codec. rewrite String.eqb_refl. reflexivity. Qed.

Lemma getSecretStrValue_default (vm : secretManagerVault) (data : list byte) (T : string) :
  unrecognized T -> getSecretStrValue vm data T = base64.EncodeToString data.
Proof.
  intros (Hk & Hpem & Hpw). apply String.eqb_neq in Hk, Hpem, Hpw.
  unfold_codec. rewrite Hk, Hpem, Hpw. reflexivity.
Qed.

Lemma getSecretByteValue_default (vm : secretManagerVault) (data T : string) :
  unrecognized T -> getSecretByteValue vm data T = base64.DecodeString data.
Proof.
  intros (Hk & Hpem & Hpw). apply String.eqb_neq in Hk, Hpem, Hpw.
  unfold_codec. rewrite Hk, Hpem, Hpw. reflexivity.
Qed.

Lemma getSecretStrValue_text (vm : secretManagerVault) (data : list byte) (T : string) :
  TypePEM <> TypeKeystore -> TypePassword <> TypeKeystore ->
  T = TypePEM \/ T = TypePassword ->
  getSecretStrValue vm data T = string_of_bytes data.
Proof.
  intros Hpem Hpw HT. apply String.eqb_neq in Hpem, Hpw.
  unfold_codec. destruct HT as [-> | ->].
  - rewrite Hpem, String.eqb_refl. reflexivity.
  - rewrite Hpw, String.eqb_refl. destruct (String.eqb TypePassword TypePEM); reflexivity.
Qed.

Lemma getSecretByteValue_text (vm : secretManagerVault) (data T : string) :
  TypePEM <> TypeKeystore -> TypePassword <> TypeKeystore ->
  T = TypePEM \/ T = TypePassword ->
  getSecretByteValue vm data T = (bytes_of_string data, None).
Proof.
  intros Hpem Hpw HT. apply String.eqb_neq in Hpem, Hpw.
  unfold_codec. destruct HT as [-> | ->].
  - rewrite Hpem, String.eqb_refl. reflexivity.
  - rewrite Hpw, String.eqb_refl. destruct (String.eqb TypePassword TypePEM); reflexivity.
Qed.

Lemma tag_cases (T : string) :
  T = TypeKeystore \/ T = TypePEM \/ T = TypePassword \/ unrecognized T.
Proof.
  destruct (String.eqb_spec T TypeKeystore); [tauto|].
  destruct (String.eqb_spec T TypePEM); [tauto|].
  destruct (String.eqb_spec T TypePassword); [tauto|].
  right; right; right. repeat split; assumption.
Qed.



(** C6. Storing the name "keystore1" with payload 01 02 03 and the
    keystore tag writes a record whose "value" field is the base64 text
    "AQID", the standard encoding of these three bytes; loading that name
    with the keystore tag returns 01 02 03. *)
Theorem keystore1_scenario (vm : secretManagerVault) (st : kvStore) :
  exists (st1 : kvStore) (record : gmap string dyn),
    exec memVault (EnsureSecret vm "keystore1" [x01; x02; x03] TypeKeystore) st
    = (None, st1,
       [KVPut (vaultClient vm) (kvMount vm) (secretPath vm +:+ "/keystore1") record])
    /\ st1 !! (kvMount vm, secretPath vm +:+ "/keystore1") = Some record
    /\ record !! "value" = Some (DString "AQID")
    /\ base64.EncodeToString [x01; x02; x03] = "AQID"
    /\ fst (fst (exec memVault (LoadSecret vm "keystore1" TypeKeystore) st1))
       = ([x01; x02; x03], None).
Proof.
  rewrite exec_EnsureSecret. cbn [memVault fst snd].
  rewrite getSecretStrValue_keystore.
  change (base64.EncodeToString [x01; x02; x03]) with "AQID".
  eexists. eexists. split; [reflexivity|].
  split; [apply lookup_insert_eq|].
  split; [apply lookup_insert_eq|].
  split; [reflexivity|].
  rewrite (LoadSecret_hit memVault _ vm "keystore1" TypeKeystore
             (mkKVSecret (<["value" := DString "AQID"]>
                            (<["secret_type" := DString TypeKeystore]> ∅)))
             "AQID").
  - rewrite getSecretByteValue_keystore. reflexivity.
  - cbn [memVault fst snd].
    change (getSecretPath vm "keystore1") with (secretPath vm +:+ "/keystore1").
    rewrite lookup_insert_eq. reflexivity.
  - cbn [Data]. apply lookup_insert_eq.
Qed.


End AdapterFacts.

(** ** The bootstrap *)

Lemma override_or_default_eqb (override default : string) :
  (if negb (String.eqb override "") then override else default)
  = override_or_default override default.
Proof. destruct override; reflexivity. Qed.

(** [newVault] with its four settings named. *)
Lemma newVault_resolved (cfg : AppConfig) :
  newVault cfg
  = (r <- trigger (NewClient (override_or_default (VaultAddress cfg) DefaultVaultAddress)) ;;
     match r with
     | inl err => Ret (None, Some (failure_error (ClientConstruction err)))
     | inr client =>
         r <- trigger (NewKubernetesAuth
                         (override_or_default (VaultKubeRole cfg) DefaultVaultKubeRoleName)) ;;
         match r with
         | inl err => Ret (None, Some (failure_error (AuthConstruction err)))
         | inr k8sAuth =>
             r <- trigger (Login client k8sAuth) ;;
             let '(authInfo, err) := r in
             match err with
             | Some err => Ret (None, Some (failure_error (LoginExchange err)))
             | None =>
                 match authInfo with
                 | None => Ret (None, Some (failure_error EmptySession))
                 | Some _ =>
                     Ret (Some {| vaultClient := client;
                                  secretPath :=
                                    override_or_default (VaultKVSecretPath cfg)
                                      DefaultVaultKVSecretPath;
                                  kvMount :=
                                    override_or_default (VaultKVMount cfg) DefaultKVMount |},
                          None)
                 end
             end
         end
     end).
Proof.
  unfold newVault. rewrite !override_or_default_eqb. reflexivity.
Qed.

(** C8. Every one of the four settings is the override when that is not
    empty and the hardcoded default otherwise: the client is built for the
    resolved address, the auth method for the resolved role, and a handle
    that [newVault] returns carries the resolved prefix and mount; against
    the in-memory server it does return that handle. *)
Theorem newVault_resolution {S : Type} (h : handler S) (s : S) (st : kvStore)
    (cfg : AppConfig) :
  let address :=
    override_or_default (VaultAddress cfg)
      "http://vault-active.vault.svc.cluster.local:8200" in
  let prefix := override_or_default (VaultKVSecretPath cfg) "kube/fr/secret" in
  let role := override_or_default (VaultKubeRole cfg) "fr-secret-agent" in
  let mount := override_or_default (VaultKVMount cfg) "secret" in
  (snd (exec h (newVault cfg) s) = [NewClient address]
   \/ snd (exec h (newVault cfg) s) = [NewClient address; NewKubernetesAuth role]
   \/ exists (c : Client) (a : KubernetesAuth),
       fst (h (NewClient address) s) = inr c
       /\ snd (exec h (newVault cfg) s)
          = [NewClient address; NewKubernetesAuth role; Login c a])
  /\ (forall (vm : secretManagerVault) (err : option error),
        fst (fst (exec h (newVault cfg) s)) = (Some vm, err) ->
        secretPath vm = prefix /\ kvMount vm = mount
        /\ fst (h (NewClient address) s) = inr (vaultClient vm))
  /\ fst (fst (exec memVault (newVault cfg) st))
     = (Some {| secretPath := prefix; kvMount := mount;
                vaultClient := mkClient address |}, None).
Proof.
  intros address prefix role mount.
  rewrite newVault_resolved.
  change DefaultVaultAddress with "http://vault-active.vault.svc.cluster.local:8200".
  change DefaultVaultKubeRoleName with "fr-secret-agent".
  change DefaultVaultKVSecretPath with "kube/fr/secret".
  change DefaultKVMount with "secret".
  fold address prefix role mount.
  split; [|split; [|reflexivity]].
  - unfold trigger. cbn [bind exec].
    destruct (h (NewClient address) s) as [[err | c] s1]; cbn [bind exec snd fst];
      [left; reflexivity|].
    destruct (h (NewKubernetesAuth role) s1) as [[err | a] s2]; cbn [bind exec snd fst];
      [right; left; reflexivity|].
    right; right. exists c, a. split; [reflexivity|].
    destruct (h (Login c a) s2) as [[authInfo [err|]] s3]; cbn [bind exec snd fst];
      [reflexivity|].
    destruct authInfo; reflexivity.
  - intros vm err0. unfold trigger. cbn [bind exec].
    destruct (h (NewClient address) s) as [[err | c] s1]; cbn [bind exec snd fst];
      [discriminate|].
    destruct (h (NewKubernetesAuth role) s1) as [[err | a] s2]; cbn [bind exec snd fst];
      [discriminate|].
    destruct (h (Login c a) s2) as [[authInfo [err|]] s3]; cbn [bind exec snd fst];
      [discriminate|].
    destruct authInfo; cbn [bind exec snd fst]; [|discriminate].
    intros [= <- <-]. repeat split.
Qed.

(** C9. Each of the four failures of the bootstrap makes [newVault] return
    no handle and an error of its own, which carries the underlying error
    where there is one; errors for different failures have different
    messages. *)
Theorem newVault_failures {S : Type} (h : handler S) (s : S) (cfg : AppConfig)
    (f : failure) :
  bootstrap_fails h cfg s f ->
  fst (fst (exec h (newVault cfg) s)) = (None, Some (failure_error f))
  /\ forall f' : failure,
       mode_of f' <> mode_of f ->
       failure_error f' <> failure_error f
       /\ Error (failure_error f') <> Error (failure_error f).
Proof.
  intros Hf. split.
  - rewrite newVault_resolved. unfold trigger. cbn [bind exec].
    destruct Hf as [err H1 | c s1 err H1 H2 | c s1 a s2 authInfo err H1 H2 H3
                   | c s1 a s2 H1 H2 H3].
    + destruct (h (NewClient _) s) as [r s1]. cbn [fst] in H1. subst r. reflexivity.
    + rewrite H1. cbn [bind exec].
      destruct (h (NewKubernetesAuth _) s1) as [r s2]. cbn [fst] in H2. subst r.
      reflexivity.
    + rewrite H1. cbn [bind exec]. rewrite H2. cbn [bind exec].
      destruct (h (Login c a) s2) as [r s3]. cbn [fst] in H3. subst r. reflexivity.
    + rewrite H1. cbn [bind exec]. rewrite H2. cbn [bind exec].
      destruct (h (Login c a) s2) as [r s3]. cbn [fst] in H3. subst r. reflexivity.
  - intros f' Hmode.
    destruct f, f'; cbn [mode_of] in Hmode; try contradiction;
      cbn; split; discriminate.
Qed.

(** ** The theorems at concrete inputs *)

Lemma LoadSecret_soft_miss_witness :
  fst (fst (exec memVault
              (LoadSecret "keystore" "pem" "password" defaultHandle "tls-cert" "pem") ∅))
  = ([], None)
  /\ fst (fst (exec memVault
                 (LoadSecret "keystore" "pem" "password" defaultHandle "tls-cert" "pem")
                 {[ ("secret", "kube/fr/secret/tls-cert") := {[ "value" := DNumber 7 ]} ]}))
     = ([], None).
Proof.
  split.
  - apply LoadSecret_soft_miss. left.
    exists (ExternalError "secret not found"). vm_compute. reflexivity.
  - apply LoadSecret_soft_miss. right.
    exists (mkKVSecret {[ "value" := DNumber 7 ]}).
    split; [vm_compute; reflexivity|].
    intros value. vm_compute. discriminate.
Defined.

Lemma LoadSecret_decode_failure_witness :
  ~ base64.valid_base64 "not base64!"
  /\ exists err : error,
       snd (base64.DecodeString "not base64!") = Some err
       /\ snd (fst (fst (exec memVault
                  (LoadSecret "keystore" "pem" "password" defaultHandle "keystore1" "keystore")
                  {[ ("secret", "kube/fr/secret/keystore1")
                     := {[ "value" := DString "not base64!" ]} ]})))
          = Some err
       /\ fst (fst (exec memVault
                  (LoadSecret "keystore" "pem" "password" defaultHandle "keystore1" "keystore")
                  {[ ("secret", "kube/fr/secret/keystore1")
                     := {[ "value" := DString "not base64!" ]} ]}))
          <> ([], None).
Proof.
  split; [vm_compute; discriminate|].
  apply (LoadSecret_decode_failure "keystore" "pem" "password" memVault _ defaultHandle
           "keystore1" "keystore" (mkKVSecret {[ "value" := DString "not base64!" ]})
           "not base64!").
  - vm_compute. reflexivity.
  - vm_compute. reflexivity.
  - left. reflexivity.
  - vm_compute. discriminate.
Defined.

Lemma LoadSecret_text_no_error_witness :
  snd (fst (fst (exec memVault
             (LoadSecret "keystore" "pem" "password" defaultHandle "tls-cert" "pem")
             {[ ("secret", "kube/fr/secret/tls-cert")
                := {[ "value" := DString "-----BEGIN CERTIFICATE-----" ]} ]})))
  = None.
Proof.
  apply LoadSecret_text_no_error.
  - discriminate.
  - discriminate.
  - left. reflexivity.
Defined.



Lemma newVault_resolution_witness :
  secretPath defaultHandle = "kube/fr/secret"
  /\ kvMount defaultHandle = "secret"
  /\ fst (memVault (NewClient "http://vault-active.vault.svc.cluster.local:8200") ∅)
     = inr (vaultClient defaultHandle).
Proof.
  apply (proj1 (proj2 (newVault_resolution memVault ∅ ∅ (mkAppConfig "" "" "" "")))
           defaultHandle None).
  vm_compute. reflexivity.
Defined.

Lemma newVault_failures_witness :
  fst (fst (exec (faultyVault ModeClient) (newVault (mkAppConfig "" "" "" "")) ∅))
  = (None, Some (Errorf_w "Vault: unable to initialize Vault client: "
                   (ExternalError "invalid address")))
  /\ fst (fst (exec (faultyVault ModeAuth) (newVault (mkAppConfig "" "" "" "")) ∅))
     = (None, Some (Errorf_w "Vault: unable to initialize Kubernetes auth method: "
                      (ExternalError "no role name was provided")))
  /\ fst (fst (exec (faultyVault ModeLogin) (newVault (mkAppConfig "" "" "" "")) ∅))
     = (None, Some (Errorf_w "Vault: unable to log in with Kubernetes auth: "
                      (ExternalError "permission denied")))
  /\ fst (fst (exec (faultyVault ModeSession) (newVault (mkAppConfig "" "" "" "")) ∅))
     = (None, Some (Errorf "Vault: no auth info was returned after login")).
Proof.
  repeat apply conj.
  - apply (newVault_failures (faultyVault ModeClient) ∅ (mkAppConfig "" "" "" "")
             (ClientConstruction (ExternalError "invalid address"))).
    apply fails_client. vm_compute. reflexivity.
  - apply (newVault_failures (faultyVault ModeAuth) ∅ (mkAppConfig "" "" "" "")
             (AuthConstruction (ExternalError "no role name was provided"))).
    eapply fails_auth; vm_compute; reflexivity.
  - apply (newVault_failures (faultyVault ModeLogin) ∅ (mkAppConfig "" "" "" "")
             (LoginExchange (ExternalError "permission denied"))).
    eapply fails_login; vm_compute; reflexivity.
  - apply (newVault_failures (faultyVault ModeSession) ∅ (mkAppConfig "" "" "" "")
             EmptySession).
    eapply fails_session; vm_compute; reflexivity.
Defined.

(** * Further properties of the adapter *)

(** ** Sequencing and the in-memory server *)




Section AdapterMore.

Variables TypeKeystore TypePEM TypePassword : string.

Ltac unfold_codec := unfold getSecretByteValue, getSecretStrValue.

Abbreviation getSecretStrValue := (getSecretStrValue TypeKeystore TypePEM TypePassword).
Abbreviation getSecretByteValue := (getSecretByteValue TypeKeystore TypePEM TypePassword).
Abbreviation EnsureSecret := (EnsureSecret TypeKeystore TypePEM TypePassword).
Abbreviation LoadSecret := (LoadSecret TypeKeystore TypePEM TypePassword).
Abbreviation unrecognized := (unrecognized TypeKeystore TypePEM TypePassword).

(** The record that [EnsureSecret] builds. *)
Abbreviation record_of vm value T :=
  (<["value" := DString (getSecretStrValue vm value T)]>
     (<["secret_type" := DString T]> (∅ : gmap string dyn))).





(** X1. A failed write is never swallowed: [EnsureSecret] returns an error
    exactly when the KV write did, that error wraps the one of the write and
    has its message, and the environment is left as the write left it. *)
Theorem EnsureSecret_surfaces_error {S : Type} (h : handler S) (s : S)
    (vm : secretManagerVault) (name : string) (value : list byte) (T : string) :
  let put :=
    KVPut (vaultClient vm) (kvMount vm) (getSecretPath vm name) (record_of vm value T) in
  let result := fst (fst (exec h (EnsureSecret vm name value T) s)) in
  (result = None <-> fst (h put s) = None)
  /\ (forall err : error, fst (h put s) = Some err ->
        result = Some (WithStack err) /\ Error (WithStack err) = Error err)
  /\ snd (fst (exec h (EnsureSecret vm name value T) s)) = snd (h put s).
Proof.
  intros put result. subst result put. rewrite exec_EnsureSecret. cbn [fst snd].
  destruct (fst (h _ s)) as [err|].
  - split; [split; discriminate|]. split; [|reflexivity].
    intros e [= <-]. split; reflexivity.
  - split; [split; reflexivity|]. split; [|reflexivity].
    intros e. discriminate.
Qed.






(** X6. A load reads the "value" field and nothing else: two hits whose
    records agree on that field give the same result for the same tag,
    whatever their "secret_type" and other fields, handles and names. *)
Theorem LoadSecret_reads_value_only {S1 S2 : Type} (h1 : handler S1) (h2 : handler S2)
    (s1 : S1) (s2 : S2) (vm1 vm2 : secretManagerVault) (name1 name2 T : string)
    (secret1 secret2 : KVSecret) :
  fst (h1 (KVGet (vaultClient vm1) (kvMount vm1) (getSecretPath vm1 name1)) s1)
  = inr secret1 ->
  fst (h2 (KVGet (vaultClient vm2) (kvMount vm2) (getSecretPath vm2 name2)) s2)
  = inr secret2 ->
  Data secret1 !! "value" = Data secret2 !! "value" ->
  fst (fst (exec h1 (LoadSecret vm1 name1 T) s1))
  = fst (fst (exec h2 (LoadSecret vm2 name2 T) s2)).
Proof.
  intros H1 H2 Hvalue. rewrite !exec_LoadSecret. cbn [fst snd].
  rewrite H1, H2, Hvalue. reflexivity.
Qed.

(** X7. The only error of a load is a decode error: [LoadSecret] returns an
    error exactly when the read returns a record whose "value" field is a
    string that is not valid base64 and the tag is the keystore tag or an
    unrecognized one. *)
Theorem LoadSecret_error_iff {S : Type} (h : handler S) (s : S)
    (vm : secretManagerVault) (name T : string) :
  TypePEM <> TypeKeystore -> TypePassword <> TypeKeystore ->
  snd (fst (fst (exec h (LoadSecret vm name T) s))) <> None
  <-> exists (secret : KVSecret) (value : string),
        fst (h (KVGet (vaultClient vm) (kvMount vm) (getSecretPath vm name)) s)
        = inr secret
        /\ Data secret !! "value" = Some (DString value)
        /\ (T = TypeKeystore \/ unrecognized T)
        /\ ~ base64.valid_base64 value.
Proof.
  intros Hpem Hpw. rewrite exec_LoadSecret. cbn [fst snd]. split.
  - destruct (fst (h _ s)) as [err | secret]; [intros H; contradiction|].
    destruct (Data secret !! "value") as [[| value | | |]|] eqn:Hvalue;
      try (intros H; contradiction).
    intros Herr. exists secret, value. split; [reflexivity|]. split; [exact Hvalue|].
    destruct (tag_cases TypeKeystore TypePEM TypePassword T) as [-> | [HT | [HT | HT]]].
    + split; [left; reflexivity|].
      rewrite getSecretByteValue_keystore in Herr.
      intros Hvalid. apply Herr, base64_facts.DecodeString_valid, Hvalid.
    + rewrite getSecretByteValue_text in Herr by (try assumption; left; exact HT).
      contradiction.
    + rewrite getSecretByteValue_text in Herr by (try assumption; right; exact HT).
      contradiction.
    + split; [right; exact HT|].
      rewrite getSecretByteValue_default in Herr by assumption.
      intros Hvalid. apply Herr, base64_facts.DecodeString_valid, Hvalid.
  - intros (secret & value & Hget & Hvalue & HT & Hbad).
    rewrite Hget, Hvalue.
    assert (Hdec : getSecretByteValue vm value T = base64.DecodeString value).
    { destruct HT as [-> | HT];
        [apply getSecretByteValue_keystore | apply getSecretByteValue_default, HT]. }
    rewrite Hdec. intros Hnone. apply Hbad, base64_facts.DecodeString_valid, Hnone.
Qed.

(** X8. Tags of one kind are interchangeable: what was encoded under the
    keystore tag or an unrecognized one decodes to the payload under any such
    tag, and what was encoded under the PEM or password tag decodes to the
    payload under either of them. *)
Theorem codec_round_trip_same_kind (vm : secretManagerVault) (P : list byte)
    (T T' : string) :
  TypePEM <> TypeKeystore -> TypePassword <> TypeKeystore ->
  ((T = TypeKeystore \/ unrecognized T) /\ (T' = TypeKeystore \/ unrecognized T'))
  \/ ((T = TypePEM \/ T = TypePassword) /\ (T' = TypePEM \/ T' = TypePassword)) ->
  getSecretByteValue vm (getSecretStrValue vm P T) T' = (P, None).
Proof.
  intros Hpem Hpw [[HT HT'] | [HT HT']].
  - assert (He : getSecretStrValue vm P T = base64.EncodeToString P).
    { destruct HT as [-> | HT];
        [apply getSecretStrValue_keystore | apply getSecretStrValue_default, HT]. }
    assert (Hd : forall data, getSecretByteValue vm data T' = base64.DecodeString data).
    { intros data. destruct HT' as [-> | HT'];
        [apply getSecretByteValue_keystore | apply getSecretByteValue_default, HT']. }
    rewrite He, Hd. apply base64_facts.DecodeString_EncodeToString.
  - rewrite (getSecretStrValue_text _ _ _ vm P T Hpem Hpw HT).
    rewrite (getSecretByteValue_text _ _ _ vm _ T' Hpem Hpw HT').
    unfold bytes_of_string, string_of_bytes.
    rewrite list_byte_of_string_of_list_byte. reflexivity.
Qed.

(** Closing does nothing: [CloseClient] makes no call and leaves the
    environment as it is, so whatever runs after it runs as without it. *)
Lemma CloseClient_noop {S A : Type} (h : handler S) (s : S)
    (vm : secretManagerVault) (p : prog A) :
  exec h (CloseClient vm) s = (tt, s, [])
  /\ exec h (_ <- CloseClient vm ;; p) s = exec h p s.
Proof. split; reflexivity. Qed.

End AdapterMore.

(** ** More on the bootstrap *)

(** X9. [newVault] returns either a handle and no error, or no handle and
    an error, never both and never neither; it returns an error exactly when
    one of the four failures occurs, and then the error of that failure. *)
Theorem newVault_outcome {S : Type} (h : handler S) (s : S) (cfg : AppConfig) :
  (exists vm : secretManagerVault,
      fst (fst (exec h (newVault cfg) s)) = (Some vm, None)
      /\ forall f : failure, ~ bootstrap_fails h cfg s f)
  \/ (exists f : failure,
         bootstrap_fails h cfg s f
         /\ fst (fst (exec h (newVault cfg) s)) = (None, Some (failure_error f))).
Proof.
  rewrite newVault_resolved. unfold trigger. cbn [bind exec].
  destruct (h (NewClient _) s) as [[err | c] s1] eqn:E1; cbn [bind exec fst].
  { right. exists (ClientConstruction err). split; [|reflexivity].
    apply fails_client. rewrite E1. reflexivity. }
  destruct (h (NewKubernetesAuth _) s1) as [[err | a] s2] eqn:E2; cbn [bind exec fst].
  { right. exists (AuthConstruction err). split; [|reflexivity].
    eapply fails_auth; [exact E1 | rewrite E2; reflexivity]. }
  destruct (h (Login c a) s2) as [[authInfo [err|]] s3] eqn:E3; cbn [bind exec fst].
  { right. exists (LoginExchange err). split; [|reflexivity].
    eapply fails_login; [exact E1 | exact E2 | rewrite E3; reflexivity]. }
  destruct authInfo as [info|]; cbn [bind exec fst].
  - left. eexists. split; [reflexivity|].
    intros f Hf.
    destruct Hf as [err H1 | c0 s0 err H1 H2 | c0 s0 a0 s0' authInfo err H1 H2 H3
                   | c0 s0 a0 s0' H1 H2 H3].
    + rewrite E1 in H1. discriminate H1.
    + rewrite E1 in H1. injection H1 as <- <-. rewrite E2 in H2. discriminate H2.
    + rewrite E1 in H1. injection H1 as <- <-. rewrite E2 in H2.
      injection H2 as <- <-. rewrite E3 in H3. discriminate H3.
    + rewrite E1 in H1. injection H1 as <- <-. rewrite E2 in H2.
      injection H2 as <- <-. rewrite E3 in H3. discriminate H3.
  - right. exists EmptySession. split; [|reflexivity].
    eapply fails_session; [exact E1 | exact E2 | rewrite E3; reflexivity].
Qed.

(** X10. The bootstrap stops at the first failure and repeats nothing: when
    building the client fails that is the only call made; when building the
    auth method fails no login is attempted; a login is attempted once. *)
Theorem newVault_fails_fast {S : Type} (h : handler S) (s : S) (cfg : AppConfig)
    (f : failure) :
  bootstrap_fails h cfg s f ->
  let address := override_or_default (VaultAddress cfg) DefaultVaultAddress in
  let role := override_or_default (VaultKubeRole cfg) DefaultVaultKubeRoleName in
  match mode_of f with
  | ModeClient => snd (exec h (newVault cfg) s) = [NewClient address]
  | ModeAuth => snd (exec h (newVault cfg) s) = [NewClient address; NewKubernetesAuth role]
  | ModeLogin | ModeSession =>
      exists (c : Client) (a : KubernetesAuth),
        snd (exec h (newVault cfg) s)
        = [NewClient address; NewKubernetesAuth role; Login c a]
  end.
Proof.
  intros Hf address role. rewrite newVault_resolved. fold address role.
  unfold trigger. cbn [bind exec].
  destruct Hf as [err H1 | c s1 err H1 H2 | c s1 a s2 authInfo err H1 H2 H3
                 | c s1 a s2 H1 H2 H3]; cbn [mode_of]; fold address role in H1.
  - destruct (h (NewClient address) s) as [r s1]. cbn [fst] in H1. subst r. reflexivity.
  - fold role in H2. rewrite H1. cbn [bind exec].
    destruct (h (NewKubernetesAuth role) s1) as [r s2]. cbn [fst] in H2. subst r.
    reflexivity.
  - fold role in H2. rewrite H1. cbn [bind exec]. rewrite H2. cbn [bind exec].
    exists c, a.
    destruct (h (Login c a) s2) as [r s3]. cbn [fst] in H3. subst r. reflexivity.
  - fold role in H2. rewrite H1. cbn [bind exec]. rewrite H2. cbn [bind exec].
    exists c, a.
    destruct (h (Login c a) s2) as [r s3]. cbn [fst] in H3. subst r. reflexivity.
Qed.

(** ** More on the base64 text *)
Module base64_more.
Import base64.

Lemma encode_inAlphabet (i : Z) : 0 <= i < 64 -> inAlphabet (encode i) = true.
Proof.
  intros Hi.
  assert (H : forallb (fun n => inAlphabet (encode (Z.of_nat n))) (seq 0 64) = true)
    by (vm_compute; reflexivity).
  rewrite forallb_forall in H. specialize (H (Z.to_nat i)).
  rewrite Z2Nat.id in H by lia. apply H, in_seq. lia.
Qed.

Lemma sextet_inAlphabet (v k : Z) :
  0 <= k -> inAlphabet (encode (Z.land (Z.shiftr v k) 63)) = true.
Proof. intros Hk. apply encode_inAlphabet, base64_facts.sextet_range, Hk. Qed.

Lemma sextet0_inAlphabet (v : Z) : inAlphabet (encode (Z.land v 63)) = true.
Proof. rewrite <- (Z.shiftr_0_r v). apply sextet_inAlphabet. lia. Qed.

(** The encoder writes characters of the alphabet, and padding at the end
    only. *)
Lemma Encode_chars (n : nat) :
  forall src : list byte, (length src <= n)%nat ->
    forallb (fun c => inAlphabet c || isPadding c) (Encode src) = true.
Proof.
  induction n as [|n IH]; intros [|s0 [|s1 [|s2 rest]]] Hn;
    cbn [length] in Hn; try lia; try reflexivity;
    cbn [Encode forallb]; cbv zeta;
    rewrite ?sextet_inAlphabet, ?sextet0_inAlphabet by lia;
    cbn [orb andb]; try reflexivity.
  apply IH. lia.
Qed.

Lemma Encode_no_newline (src : list byte) : stripNewlines (Encode src) = Encode src.
Proof.
  pose proof (Encode_chars (length src) src (le_n _)) as H.
  induction (Encode src) as [|c l IH]; [reflexivity|].
  cbn [forallb] in H. apply andb_true_iff in H as [Hc Hl].
  rewrite base64_facts.stripNewlines_cons; [rewrite IH by assumption; reflexivity|].
  apply orb_true_iff in Hc as [Hc | Hc];
    [apply base64_facts.inAlphabet_isNewline | apply base64_facts.isPadding_isNewline];
    assumption.
Qed.

(** Four characters for every three bytes or part of three bytes. *)
Lemma Encode_length (n : nat) :
  forall src : list byte, (length src <= n)%nat ->
    (3 * length (Encode src) <= 4 * (length src + 2)
     /\ 4 * length src <= 3 * length (Encode src)
     /\ exists k : nat, length (Encode src) = 4 * k)%nat.
Proof.
  induction n as [|n IH]; intros [|s0 [|s1 [|s2 rest]]] Hn;
    cbn [length] in Hn; try lia; cbn [Encode length];
    try (split; [lia | split; [lia|]]).
  - exists 0%nat. reflexivity.
  - exists 0%nat. reflexivity.
  - exists 1%nat. reflexivity.
  - exists 1%nat. reflexivity.
  - destruct (IH rest ltac:(lia)) as (H1 & H2 & k & Hk).
    split; [lia | split; [lia|]]. exists (S k). lia.
Qed.

(** What [quantumLoop] leaves unread when it falls out of the loop: with the
    [j] characters read before, at least four characters are gone. *)
Lemma quantumLoop_consumed (src : list byte) :
  forall (j : nat) (dbuf : list Z) (si : Z) (dlen : nat) (dbuf' : list Z)
         (rest : list byte) (nsi : Z) (err : option error),
    (j <= 4)%nat ->
    quantumLoop j dbuf src si = Break dlen dbuf' rest nsi err ->
    (length rest + 4 <= length src + j)%nat.
Proof.
  induction src as [|c src IH]; intros j dbuf si dlen dbuf' rest nsi err Hj;
    cbn [quantumLoop].
  - destruct (Nat.leb_spec 4 j); [intros [= <- <- <- <- <-]; cbn; lia|].
    destruct (j =? 0)%nat; discriminate.
  - destruct (Nat.leb_spec 4 j); [intros [= <- <- <- <- <-]; cbn [length]; lia|].
    cbv zeta. destruct (negb (decodeMap c =? 255)).
    { intros H'. apply IH in H'; [cbn [length]; lia | lia]. }
    destruct (isNewline c).
    { intros H'. apply IH in H'; [cbn [length]; lia | lia]. }
    destruct (negb (Byte.eqb c StdPadding)); [discriminate|].
    destruct j as [|[|[|[|j]]]]; try discriminate; try lia.
    + pose proof (base64_facts.skipNewlines_length src (si + 1)) as H1.
      destruct (skipNewlines src (si + 1)) as [rest1 si1]. cbn [fst] in H1.
      destruct rest1 as [|c1 rest2]; [discriminate|].
      destruct (negb (Byte.eqb c1 StdPadding)); [discriminate|].
      pose proof (base64_facts.skipNewlines_length rest2 (si1 + 1)) as H2.
      destruct (skipNewlines rest2 (si1 + 1)) as [rest3 si3]. cbn [fst] in H2.
      intros [= <- <- <- <- <-]. cbn [length] in *. lia.
    + pose proof (base64_facts.skipNewlines_length src (si + 1)) as H1.
      destruct (skipNewlines src (si + 1)) as [rest3 si3]. cbn [fst] in H1.
      intros [= <- <- <- <- <-]. cbn [length] in *. lia.
Qed.

Lemma decodeQuantum_budget (src : list byte) (si : Z) :
  (4 * length (snd (fst (decodeQuantum src si)))
   + 3 * length (fst (fst (fst (decodeQuantum src si))))
   <= 3 * length src)%nat.
Proof.
  unfold decodeQuantum.
  pose proof (proj1 (base64_facts.quantumLoop_rest src 0 [0; 0; 0; 0] si)) as Hrest.
  pose proof (quantumLoop_consumed src 0 [0; 0; 0; 0] si) as Hbreak.
  destruct (quantumLoop 0 [0; 0; 0; 0] src si) as [r nsi err | dlen dbuf r nsi err];
    cbn [fst snd exit_rest length] in *; [lia|].
  specialize (Hbreak dlen dbuf r nsi err ltac:(lia) eq_refl).
  destruct dlen as [|[|[|[|[|dlen]]]]]; cbn [length]; lia.
Qed.

(** The decoder returns at most three bytes for every four of its input. *)
Lemma decodeLoop_budget (fuel : nat) :
  forall (src : list byte) (si : Z) (dst : list byte),
    (4 * length (fst (decodeLoop fuel src si dst))
     <= 4 * length dst + 3 * length src)%nat.
Proof.
  induction fuel as [|fuel IH]; intros [|c src] si dst;
    try (cbn [decodeLoop fst]; lia).
  cbn [decodeLoop].
  pose proof (decodeQuantum_budget (c :: src) si) as Hq.
  destruct (decodeQuantum (c :: src) si) as [[[rest nsi] out] [e|]];
    cbn [fst snd] in *.
  - rewrite length_app. lia.
  - specialize (IH rest nsi (dst ++ out)). rewrite length_app in IH. lia.
Qed.

Lemma DecodeString_budget (s : string) :
  (4 * length (fst (DecodeString s)) <= 3 * length (bytes_of_string s))%nat.
Proof.
  unfold DecodeString, Decode.
  pose proof (decodeLoop_budget (length (bytes_of_string s)) (bytes_of_string s) 0 []) as H.
  cbn [length] in H. lia.
Qed.

(** *** Line breaks do not change what is decoded *)

Lemma stripNewlines_head (src : list byte) (c : byte) (rest : list byte) :
  stripNewlines src = c :: rest -> isNewline c = false.
Proof.
  intros H.
  assert (Hin : In c (stripNewlines src)) by (rewrite H; left; reflexivity).
  unfold stripNewlines in Hin. apply filter_In in Hin as [_ Hc].
  apply negb_true_iff in Hc. exact Hc.
Qed.

Lemma skipNewlines_stripped (src : list byte) (si : Z) :
  skipNewlines (stripNewlines src) si = (stripNewlines src, si).
Proof.
  destruct (stripNewlines src) as [|c rest] eqn:E; [reflexivity|].
  cbn [skipNewlines]. rewrite (stripNewlines_head src c rest E). reflexivity.
Qed.

Lemma quantumLoop_over (j : nat) (dbuf : list Z) (src : list byte) (si : Z) :
  (4 <= j)%nat -> quantumLoop j dbuf src si = Break 4 dbuf src si None.
Proof.
  intros Hj. destruct src; cbn [quantumLoop];
    destruct (Nat.leb_spec 4 j); try lia; reflexivity.
Qed.

Lemma same_exit_tail (rest3 : list byte) (j : nat) (dbuf : list Z) (si3 si3' : Z) :
  (rest3 = [] \/ exists c r, rest3 = c :: r /\ isNewline c = false) ->
  same_exit
    (Break j dbuf rest3 si3
       match rest3 with [] => None | _ :: _ => Some (CorruptInputError si3) end)
    (Break j dbuf (stripNewlines rest3) si3'
       match stripNewlines rest3 with [] => None | _ :: _ => Some (CorruptInputError si3') end).
Proof.
  intros [-> | (c & r & -> & Hc)]; cbn [same_exit].
  - repeat split; reflexivity.
  - rewrite base64_facts.stripNewlines_cons by assumption.
    repeat split; try reflexivity; discriminate.
Qed.

Lemma quantumLoop_strip (src : list byte) :
  forall (j : nat) (dbuf : list Z) (si si' : Z),
    same_exit (quantumLoop j dbuf src si) (quantumLoop j dbuf (stripNewlines src) si').
Proof.
  induction src as [|c src IH]; intros j dbuf si si'.
  - change (stripNewlines []) with (@nil byte). cbn [quantumLoop].
    destruct (4 <=? j)%nat; [cbn; repeat split; reflexivity|].
    destruct (j =? 0)%nat; cbn; repeat split; try reflexivity; try discriminate.
  - destruct (Nat.le_gt_cases 4 j) as [Hj | Hj].
    { rewrite !quantumLoop_over by assumption. cbn. repeat split; reflexivity. }
    destruct (isNewline c) eqn:En.
    { rewrite base64_facts.stripNewlines_newline by assumption.
      cbn [quantumLoop]. destruct (Nat.leb_spec 4 j); [lia|]. cbv zeta.
      rewrite base64_facts.inAlphabet_decodeMap.
      destruct (inAlphabet c) eqn:Ea.
      { apply base64_facts.inAlphabet_isNewline in Ea. congruence. }
      rewrite En. apply IH. }
    rewrite base64_facts.stripNewlines_cons by assumption.
    cbn [quantumLoop]. destruct (Nat.leb_spec 4 j); [lia|]. cbv zeta.
    rewrite En.
    destruct (negb (decodeMap c =? 255)); [apply IH|].
    destruct (negb (Byte.eqb c StdPadding));
      [cbn; repeat split; try reflexivity; discriminate|].
    destruct j as [|[|[|[|j]]]]; try lia;
      try (cbn; repeat split; try reflexivity; discriminate).
    + rewrite skipNewlines_stripped.
      destruct (base64_facts.skipNewlines_strip src (si + 1)) as [Hs Hhead].
      destruct (skipNewlines src (si + 1)) as [rest1 si1]. cbn [fst] in *.
      rewrite <- Hs.
      destruct Hhead as [-> | (c1 & rest2 & -> & En1)].
      { cbn. repeat split; try reflexivity; discriminate. }
      rewrite base64_facts.stripNewlines_cons by assumption.
      destruct (negb (Byte.eqb c1 StdPadding));
        [cbn; repeat split; try reflexivity; discriminate|].
      rewrite skipNewlines_stripped.
      destruct (base64_facts.skipNewlines_strip rest2 (si1 + 1)) as [Hs2 Hhead2].
      destruct (skipNewlines rest2 (si1 + 1)) as [rest3 si3]. cbn [fst] in *.
      rewrite <- Hs2. apply same_exit_tail, Hhead2.
    + rewrite skipNewlines_stripped.
      destruct (base64_facts.skipNewlines_strip src (si + 1)) as [Hs Hhead].
      destruct (skipNewlines src (si + 1)) as [rest3 si3]. cbn [fst] in *.
      rewrite <- Hs. apply same_exit_tail, Hhead.
Qed.

Lemma decodeLoop_strip (n : nat) :
  forall (src : list byte), (length src <= n)%nat ->
  forall (fuel fuel' : nat) (si si' : Z) (dst : list byte),
    (length src <= fuel)%nat -> (length (stripNewlines src) <= fuel')%nat ->
    fst (decodeLoop fuel src si dst) = fst (decodeLoop fuel' (stripNewlines src) si' dst)
    /\ (snd (decodeLoop fuel src si dst) = None
        <-> snd (decodeLoop fuel' (stripNewlines src) si' dst) = None).
Proof.
  induction n as [|n IH]; intros [|c src] Hn fuel fuel' si si' dst Hfuel Hfuel';
    cbn [length] in Hn; try lia.
  - change (stripNewlines []) with (@nil byte).
    rewrite !base64_facts.decodeLoop_nil. split; reflexivity.
  - change (stripNewlines []) with (@nil byte).
    rewrite !base64_facts.decodeLoop_nil. split; reflexivity.
  - destruct fuel as [|fuel]; [cbn [length] in Hfuel; lia|].
    cbn [decodeLoop].
    pose proof (quantumLoop_strip (c :: src) 0 [0; 0; 0; 0] si si') as Hsame.
    pose proof (base64_facts.decodeQuantum_rest (c :: src) si ltac:(discriminate)) as Hrest.
    unfold decodeQuantum in *.
    destruct (stripNewlines (c :: src)) as [|c' src'] eqn:Es.
    + change (quantumLoop 0 [0; 0; 0; 0] [] si') with (Return [] si' None) in Hsame.
      rewrite base64_facts.decodeLoop_nil.
      destruct (quantumLoop 0 [0; 0; 0; 0] (c :: src) si) as [r nsi e | d b r nsi e];
        cbn [same_exit] in Hsame; [|contradiction].
      destruct Hsame as [He Hr]. rewrite (proj2 He eq_refl) in *.
      destruct (Hr eq_refl) as [-> _].
      rewrite base64_facts.decodeLoop_nil, app_nil_r. split; reflexivity.
    + destruct fuel' as [|fuel']; [cbn [length] in Hfuel'; lia|].
      cbn [decodeLoop].
      pose proof (base64_facts.decodeQuantum_rest (c' :: src') si' ltac:(discriminate))
        as Hrest'.
      unfold decodeQuantum in *.
      destruct (quantumLoop 0 [0; 0; 0; 0] (c :: src) si) as [r nsi e | d b r nsi e],
        (quantumLoop 0 [0; 0; 0; 0] (c' :: src') si') as [r' nsi' e' | d' b' r' nsi' e'];
        cbn [same_exit fst] in *; try contradiction.
      * destruct Hsame as [He Hr]. destruct e as [e|], e' as [e'|].
        -- cbn [fst snd]. split; [reflexivity | split; discriminate].
        -- exfalso. pose proof (proj2 He eq_refl). discriminate.
        -- exfalso. pose proof (proj1 He eq_refl). discriminate.
        -- destruct (Hr eq_refl) as [-> ->].
           rewrite !base64_facts.decodeLoop_nil. split; reflexivity.
      * destruct Hsame as (<- & <- & He & <-). destruct e as [e|], e' as [e'|].
        -- cbn [fst snd]. split; [reflexivity | split; discriminate].
        -- exfalso. pose proof (proj2 He eq_refl). discriminate.
        -- exfalso. pose proof (proj1 He eq_refl). discriminate.
        -- apply IH; cbn [length] in *; lia.
Qed.

(** Decoding a text and decoding it without its line breaks give the same
    bytes, and fail together. *)
Lemma DecodeString_strip (s s' : string) :
  stripNewlines (bytes_of_string s) = stripNewlines (bytes_of_string s') ->
  fst (DecodeString s) = fst (DecodeString s')
  /\ (snd (DecodeString s) = None <-> snd (DecodeString s') = None).
Proof.
  intros H. unfold DecodeString, Decode.
  destruct (decodeLoop_strip (length (bytes_of_string s)) (bytes_of_string s) (le_n _)
              (length (bytes_of_string s))
              (length (stripNewlines (bytes_of_string s))) 0 0 [] (le_n _) (le_n _))
    as [H1 H2].
  destruct (decodeLoop_strip (length (bytes_of_string s')) (bytes_of_string s') (le_n _)
              (length (bytes_of_string s'))
              (length (stripNewlines (bytes_of_string s))) 0 0 []
              (le_n _) ltac:(rewrite H; apply le_n))
    as [H1' H2'].
  rewrite H1, H1', H2, H2', H. split; reflexivity.
Qed.

End base64_more.

(** ** The stored text and the tags *)
Section AdapterText.

Variables TypeKeystore TypePEM TypePassword : string.

Ltac unfold_codec := unfold getSecretByteValue, getSecretStrValue.

Abbreviation getSecretStrValue := (getSecretStrValue TypeKeystore TypePEM TypePassword).
Abbreviation getSecretByteValue := (getSecretByteValue TypeKeystore TypePEM TypePassword).
Abbreviation unrecognized := (unrecognized TypeKeystore TypePEM TypePassword).

Lemma getSecretStrValue_base64 (vm : secretManagerVault) (P : list byte) (T : string) :
  T = TypeKeystore \/ unrecognized T ->
  getSecretStrValue vm P T = base64.EncodeToString P.
Proof.
  intros [-> | HT]; [apply getSecretStrValue_keystore | apply getSecretStrValue_default, HT].
Qed.

Lemma getSecretByteValue_base64 (vm : secretManagerVault) (data T : string) :
  T = TypeKeystore \/ unrecognized T ->
  getSecretByteValue vm data T = base64.DecodeString data.
Proof.
  intros [-> | HT];
    [apply getSecretByteValue_keystore | apply getSecretByteValue_default, HT].
Qed.

Lemma bytes_of_EncodeToString (P : list byte) :
  bytes_of_string (base64.EncodeToString P) = base64.Encode P.
Proof.
  unfold base64.EncodeToString, bytes_of_string, string_of_bytes.
  apply list_byte_of_string_of_list_byte.
Qed.

Lemma bytes_of_string_of_bytes (P : list byte) :
  bytes_of_string (string_of_bytes P) = P.
Proof. apply list_byte_of_string_of_list_byte. Qed.

(** X11. Under the keystore tag and under unrecognized tags the string that
    is stored is valid base64 made of characters of the alphabet and padding
    only, four characters for every three bytes of payload or part thereof. *)
Theorem getSecretStrValue_base64_text (vm : secretManagerVault) (P : list byte)
    (T : string) :
  T = TypeKeystore \/ unrecognized T ->
  base64.valid_base64 (getSecretStrValue vm P T)
  /\ forallb (fun c => base64.inAlphabet c || base64.isPadding c)
       (bytes_of_string (getSecretStrValue vm P T)) = true
  /\ length (bytes_of_string (getSecretStrValue vm P T))
     = (4 * ((length P + 2) / 3))%nat.
Proof.
  intros HT. rewrite getSecretStrValue_base64 by assumption.
  rewrite bytes_of_EncodeToString. repeat apply conj.
  - apply base64_facts.DecodeString_valid.
    rewrite base64_facts.DecodeString_EncodeToString. reflexivity.
  - apply (base64_more.Encode_chars (length P)), le_n.
  - destruct (base64_more.Encode_length (length P) P (le_n _)) as (H1 & H2 & k & Hk).
    rewrite Hk. f_equal.
    apply (Nat.div_unique (length P + 2) 3 k (length P + 2 - 3 * k)); lia.
Qed.

(** X12. A load never returns more bytes than the stored string has, and
    under the keystore tag and unrecognized tags at most three bytes for
    every four of it, error or not. *)
Theorem getSecretByteValue_length (vm : secretManagerVault) (data T : string) :
  (length (fst (getSecretByteValue vm data T)) <= length (bytes_of_string data))%nat
  /\ (T = TypeKeystore \/ unrecognized T ->
      (4 * length (fst (getSecretByteValue vm data T))
       <= 3 * length (bytes_of_string data))%nat).
Proof.
  pose proof (base64_more.DecodeString_budget data) as Hb.
  split.
  - unfold_codec.
    destruct (String.eqb T TypeKeystore), (String.eqb T TypePEM),
      (String.eqb T TypePassword); cbn [fst]; lia.
  - intros HT. rewrite getSecretByteValue_base64 by assumption. exact Hb.
Qed.

(** X13. A tag of the other kind never gives the payload back: what was
    stored under the keystore tag or an unrecognized one and is loaded under
    the PEM or password tag, or the other way round, comes back as bytes
    other than the payload, unless the payload is empty. *)
Theorem wrong_kind_never_round_trips (vm : secretManagerVault) (P : list byte)
    (T T' : string) :
  TypePEM <> TypeKeystore -> TypePassword <> TypeKeystore ->
  P <> [] ->
  ((T = TypeKeystore \/ unrecognized T) /\ (T' = TypePEM \/ T' = TypePassword))
  \/ ((T = TypePEM \/ T = TypePassword) /\ (T' = TypeKeystore \/ unrecognized T')) ->
  fst (getSecretByteValue vm (getSecretStrValue vm P T) T') <> P.
Proof.
  intros Hpem Hpw HP [[HT HT'] | [HT HT']] Heq.
  - rewrite getSecretStrValue_base64 in Heq by assumption.
    rewrite (getSecretByteValue_text _ _ _ vm _ T' Hpem Hpw HT') in Heq.
    cbn [fst] in Heq. rewrite bytes_of_EncodeToString in Heq.
    destruct (base64_more.Encode_length (length P) P (le_n _)) as (H1 & H2 & k & Hk).
    rewrite Heq in H2. destruct P; [contradiction | cbn [length] in H2; lia].
  - rewrite (getSecretStrValue_text _ _ _ vm P T Hpem Hpw HT) in Heq.
    rewrite getSecretByteValue_base64 in Heq by assumption.
    pose proof (base64_more.DecodeString_budget (string_of_bytes P)) as Hb.
    rewrite Heq, bytes_of_string_of_bytes in Hb.
    destruct P; [contradiction | cbn [length] in Hb; lia].
Qed.

(** X14. Under the keystore tag and unrecognized tags line breaks in the
    stored string do not matter: two strings that are equal up to CR and LF
    load to the same bytes and fail together; so what was stored loads to
    the payload also after line breaks were put into it anywhere. *)
Theorem getSecretByteValue_ignores_newlines (vm : secretManagerVault)
    (data data' T : string) :
  T = TypeKeystore \/ unrecognized T ->
  base64.stripNewlines (bytes_of_string data)
  = base64.stripNewlines (bytes_of_string data') ->
  fst (getSecretByteValue vm data T) = fst (getSecretByteValue vm data' T)
  /\ (snd (getSecretByteValue vm data T) = None
      <-> snd (getSecretByteValue vm data' T) = None)
  /\ (forall P : list byte,
        data' = getSecretStrValue vm P T -> getSecretByteValue vm data T = (P, None)).
Proof.
  intros HT Hstrip. rewrite !getSecretByteValue_base64 by assumption.
  destruct (base64_more.DecodeString_strip data data' Hstrip) as [Hfst Hsnd].
  split; [exact Hfst|]. split; [exact Hsnd|].
  intros P ->. rewrite getSecretStrValue_base64 in * by assumption.
  rewrite base64_facts.DecodeString_EncodeToString in *. cbn [fst snd] in *.
  destruct (base64.DecodeString data) as [out err]. cbn [fst snd] in *.
  rewrite Hfst, (proj2 Hsnd eq_refl). reflexivity.
Qed.

End AdapterText.

(** ** Where a decode error points *)
Module base64_position.
Import base64.

Lemma skipNewlines_position (src : list byte) (si : Z) :
  snd (skipNewlines src si) + Z.of_nat (length (fst (skipNewlines src si)))
  = si + Z.of_nat (length src).
Proof.
  revert si. induction src as [|c src IH]; intros si; cbn [skipNewlines].
  - reflexivity.
  - destruct (isNewline c); [rewrite IH; cbn [length]; lia | reflexivity].
Qed.

(** The loop only moves forward, one position for every byte it takes. *)
Lemma quantumLoop_position (src : list byte) :
  forall (j : nat) (dbuf : list Z) (si : Z),
    si <= exit_si (quantumLoop j dbuf src si)
    /\ exit_si (quantumLoop j dbuf src si)
       + Z.of_nat (length (exit_rest (quantumLoop j dbuf src si)))
       <= si + Z.of_nat (length src).
Proof.
  induction src as [|c src IH]; intros j dbuf si; cbn [quantumLoop].
  - destruct (4 <=? j)%nat; [cbn; lia|]. destruct (j =? 0)%nat; cbn; lia.
  - destruct (4 <=? j)%nat; [cbn [exit_si exit_rest]; lia|]. cbv zeta.
    destruct (negb (decodeMap c =? 255)).
    { specialize (IH (S j) (<[j:=decodeMap c]> dbuf) (si + 1)). cbn [length]. lia. }
    destruct (isNewline c).
    { specialize (IH j dbuf (si + 1)). cbn [length]. lia. }
    destruct (negb (Byte.eqb c StdPadding)); [cbn [exit_si exit_rest length]; lia|].
    pose proof (skipNewlines_position src (si + 1)) as H1.
    pose proof (base64_facts.skipNewlines_length src (si + 1)) as L1.
    destruct j as [|[|[|j]]]; try (cbn [exit_si exit_rest length]; lia).
    + destruct (skipNewlines src (si + 1)) as [rest1 si1]. cbn [fst snd] in *.
      destruct rest1 as [|c1 rest2]; [cbn [exit_si exit_rest length] in *; lia|].
      destruct (negb (Byte.eqb c1 StdPadding));
        [cbn [exit_si exit_rest length] in *; lia|].
      pose proof (skipNewlines_position rest2 (si1 + 1)) as H2.
      pose proof (base64_facts.skipNewlines_length rest2 (si1 + 1)) as L2.
      destruct (skipNewlines rest2 (si1 + 1)) as [rest3 si3]. cbn [fst snd] in *.
      cbn [exit_si exit_rest length] in *. lia.
    + destruct (skipNewlines src (si + 1)) as [rest3 si3]. cbn [fst snd] in *.
      cbn [exit_si exit_rest length] in *. lia.
Qed.

(** Every error of the loop is a [CorruptInputError] at a position of the
    text. *)
Lemma quantumLoop_error (src : list byte) :
  forall (j : nat) (dbuf : list Z) (si : Z) (err : error),
    Z.of_nat j <= si ->
    exit_err (quantumLoop j dbuf src si) = Some err ->
    exists n : Z, err = CorruptInputError n /\ 0 <= n <= si + Z.of_nat (length src).
Proof.
  induction src as [|c src IH]; intros j dbuf si err Hj; cbn [quantumLoop].
  - destruct (4 <=? j)%nat; [discriminate|].
    destruct (j =? 0)%nat; [discriminate|].
    intros [= <-]. eexists. split; [reflexivity|]. cbn [length]. lia.
  - destruct (4 <=? j)%nat; [discriminate|]. cbv zeta.
    destruct (negb (decodeMap c =? 255)).
    { intros H. apply IH in H; [|lia]. destruct H as (n & -> & Hn).
      exists n. split; [reflexivity|]. cbn [length]. lia. }
    destruct (isNewline c).
    { intros H. apply IH in H; [|lia]. destruct H as (n & -> & Hn).
      exists n. split; [reflexivity|]. cbn [length]. lia. }
    destruct (negb (Byte.eqb c StdPadding)).
    { intros [= <-]. eexists. split; [reflexivity|]. cbn [length]. lia. }
    pose proof (skipNewlines_position src (si + 1)) as H1.
    pose proof (base64_facts.skipNewlines_length src (si + 1)) as L1.
    destruct j as [|[|[|j]]].
    + intros [= <-]. eexists. split; [reflexivity|]. cbn [length]. lia.
    + intros [= <-]. eexists. split; [reflexivity|]. cbn [length]. lia.
    + destruct (skipNewlines src (si + 1)) as [rest1 si1]. cbn [fst snd] in *.
      destruct rest1 as [|c1 rest2].
      { intros [= <-]. eexists. split; [reflexivity|]. cbn [length] in *. lia. }
      destruct (negb (Byte.eqb c1 StdPadding)).
      { intros [= <-]. eexists. split; [reflexivity|]. cbn [length] in *. lia. }
      pose proof (skipNewlines_position rest2 (si1 + 1)) as H2.
      pose proof (base64_facts.skipNewlines_length rest2 (si1 + 1)) as L2.
      destruct (skipNewlines rest2 (si1 + 1)) as [rest3 si3]. cbn [fst snd] in *.
      destruct rest3; [discriminate|].
      intros [= <-]. eexists. split; [reflexivity|]. cbn [length] in *. lia.
    + destruct (skipNewlines src (si + 1)) as [rest3 si3]. cbn [fst snd] in *.
      destruct rest3; [discriminate|].
      intros [= <-]. eexists. split; [reflexivity|]. cbn [length] in *. lia.
Qed.

Lemma decodeLoop_error (fuel : nat) :
  forall (src : list byte) (si : Z) (dst : list byte) (err : error),
    0 <= si ->
    snd (decodeLoop fuel src si dst) = Some err ->
    exists n : Z, err = CorruptInputError n /\ 0 <= n <= si + Z.of_nat (length src).
Proof.
  induction fuel as [|fuel IH]; intros [|c src] si dst err Hsi;
    try (cbn [decodeLoop snd]; discriminate).
  cbn [decodeLoop]. unfold decodeQuantum.
  pose proof (quantumLoop_position (c :: src) 0 [0; 0; 0; 0] si) as Hpos.
  pose proof (quantumLoop_error (c :: src) 0 [0; 0; 0; 0] si) as Herr.
  destruct (quantumLoop 0 [0; 0; 0; 0] (c :: src) si) as [r nsi e | d b r nsi e];
    cbn [exit_si exit_rest exit_err] in *.
  - destruct e as [e|]; cbn [snd].
    + intros [= <-]. apply Herr; [cbn; lia | reflexivity].
    + intros H. apply IH in H; [|lia]. destruct H as (n & -> & Hn).
      exists n. split; [reflexivity | lia].
  - destruct e as [e|]; cbn [snd].
    + intros [= <-]. apply Herr; [cbn; lia | reflexivity].
    + intros H. apply IH in H; [|lia]. destruct H as (n & -> & Hn).
      exists n. split; [reflexivity | lia].
Qed.

Lemma DecodeString_error (s : string) (err : error) :
  snd (DecodeString s) = Some err ->
  exists n : Z,
    err = CorruptInputError n /\ 0 <= n <= Z.of_nat (length (bytes_of_string s)).
Proof.
  intros H. unfold DecodeString, Decode in H.
  apply decodeLoop_error in H; [|lia]. destruct H as (n & -> & Hn).
  exists n. split; [reflexivity | lia].
Qed.

End base64_position.

(** ** Edges of the load and of the bootstrap *)
Section AdapterEdges.

Variables TypeKeystore TypePEM TypePassword : string.

Ltac unfold_codec := unfold getSecretByteValue, getSecretStrValue.

Abbreviation getSecretStrValue := (getSecretStrValue TypeKeystore TypePEM TypePassword).
Abbreviation getSecretByteValue := (getSecretByteValue TypeKeystore TypePEM TypePassword).
Abbreviation LoadSecret := (LoadSecret TypeKeystore TypePEM TypePassword).

(** X15. The empty payload cannot be told from a missing secret: under every
    tag it is stored as the empty string, and a hit whose "value" field is
    the empty string loads as the empty byte sequence without error, which
    is what a miss gives. *)
Theorem empty_payload_loads_as_miss {S : Type} (h : handler S) (s : S)
    (vm : secretManagerVault) (name T T' : string) (secret : KVSecret) :
  fst (h (KVGet (vaultClient vm) (kvMount vm) (getSecretPath vm name)) s) = inr secret ->
  Data secret !! "value" = Some (DString "") ->
  getSecretStrValue vm [] T = ""
  /\ fst (fst (exec h (LoadSecret vm name T') s)) = ([], None).
Proof.
  intros Hget Hvalue. split.
  - unfold_codec.
    destruct (String.eqb T TypeKeystore), (String.eqb T TypePEM),
      (String.eqb T TypePassword); reflexivity.
  - rewrite (LoadSecret_hit _ _ _ h s vm name T' secret "" Hget Hvalue).
    unfold_codec.
    destruct (String.eqb T' TypeKeystore), (String.eqb T' TypePEM),
      (String.eqb T' TypePassword); reflexivity.
Qed.

(** X16. The one error a load can return is that of the base64 decoder: a
    [CorruptInputError] whose position lies within the stored string; errors
    of the read itself never come out of [LoadSecret]. *)
Theorem LoadSecret_error_is_corrupt_input {S : Type} (h : handler S) (s : S)
    (vm : secretManagerVault) (name T : string) (err : error) :
  snd (fst (fst (exec h (LoadSecret vm name T) s))) = Some err ->
  exists (secret : KVSecret) (value : string) (n : Z),
    fst (h (KVGet (vaultClient vm) (kvMount vm) (getSecretPath vm name)) s) = inr secret
    /\ Data secret !! "value" = Some (DString value)
    /\ err = CorruptInputError n
    /\ 0 <= n <= Z.of_nat (length (bytes_of_string value)).
Proof.
  rewrite exec_LoadSecret. cbn [fst snd].
  destruct (fst (h _ s)) as [e | secret]; [discriminate|].
  destruct (Data secret !! "value") as [[| value | | |]|] eqn:Hvalue; try discriminate.
  intros Herr. exists secret, value.
  assert (Hdec : snd (base64.DecodeString value) = Some err).
  { revert Herr. unfold_codec.
    destruct (String.eqb T TypeKeystore), (String.eqb T TypePEM),
      (String.eqb T TypePassword); cbn [snd]; intros H; try exact H; discriminate H. }
  apply base64_position.DecodeString_error in Hdec as (n & -> & Hn).
  exists n. repeat split; try assumption; lia.
Qed.

End AdapterEdges.

Lemma override_or_default_nonempty (override default : string) :
  default <> "" -> override_or_default override default <> "".
Proof. intros Hd. destruct override; [exact Hd | discriminate]. Qed.

(** X17. No setting of the bootstrap is ever empty: the address and the role
    that [newVault] passes on, and the prefix and the mount of a handle it
    returns, are not the empty string, whatever the configuration. *)
Theorem newVault_settings_nonempty {S : Type} (h : handler S) (s : S)
    (cfg : AppConfig) :
  Forall (fun r : request =>
            match r with
            | NewClient address => address <> ""
            | NewKubernetesAuth role => role <> ""
            | _ => True
            end) (snd (exec h (newVault cfg) s))
  /\ forall (vm : secretManagerVault) (err : option error),
       fst (fst (exec h (newVault cfg) s)) = (Some vm, err) ->
       secretPath vm <> "" /\ kvMount vm <> "".
Proof.
  rewrite newVault_resolved. unfold trigger. cbn [bind exec].
  assert (Ha : override_or_default (VaultAddress cfg) DefaultVaultAddress <> "")
    by (apply override_or_default_nonempty; discriminate).
  assert (Hr : override_or_default (VaultKubeRole cfg) DefaultVaultKubeRoleName <> "")
    by (apply override_or_default_nonempty; discriminate).
  destruct (h (NewClient _) s) as [[err | c] s1]; cbn [bind exec fst snd].
  { split; [repeat constructor; assumption | discriminate]. }
  destruct (h (NewKubernetesAuth _) s1) as [[err | a] s2]; cbn [bind exec fst snd].
  { split; [repeat constructor; assumption | discriminate]. }
  destruct (h (Login c a) s2) as [[authInfo [err|]] s3]; cbn [bind exec fst snd].
  { split; [repeat constructor; assumption | discriminate]. }
  destruct authInfo; cbn [bind exec fst snd].
  - split; [repeat constructor; assumption|].
    intros vm err [= <- <-]. cbn [secretPath kvMount].
    split; apply override_or_default_nonempty; discriminate.
  - split; [repeat constructor; assumption | discriminate].
Qed.

(** ** The further properties at concrete inputs *)

Lemma EnsureSecret_surfaces_error_witness :
  fst (fst (exec downVault
              (EnsureSecret "keystore" "pem" "password" defaultHandle "tls-cert"
                 [x01; x02; x03] "pem") tt))
  = Some (WithStack (ExternalError "connection refused"))
  /\ Error (WithStack (ExternalError "connection refused"))
     = Error (ExternalError "connection refused").
Proof.
  apply (proj1 (proj2 (EnsureSecret_surfaces_error "keystore" "pem" "password"
                         downVault tt defaultHandle "tls-cert" [x01; x02; x03] "pem"))).
  vm_compute. reflexivity.
Defined.


Lemma LoadSecret_reads_value_only_witness :
  fst (fst (exec memVault
              (LoadSecret "keystore" "pem" "password" defaultHandle "a" "keystore")
              {[ ("secret", "kube/fr/secret/a")
                 := {[ "value" := DString "AQID"; "secret_type" := DString "pem" ]} ]}))
  = fst (fst (exec memVault
                (LoadSecret "keystore" "pem" "password" defaultHandle "b" "keystore")
                {[ ("secret", "kube/fr/secret/b") := {[ "value" := DString "AQID" ]} ]})).
Proof.
  apply (LoadSecret_reads_value_only "keystore" "pem" "password" memVault memVault _ _
           defaultHandle defaultHandle "a" "b" "keystore"
           (mkKVSecret {[ "value" := DString "AQID"; "secret_type" := DString "pem" ]})
           (mkKVSecret {[ "value" := DString "AQID" ]})).
  - vm_compute. reflexivity.
  - vm_compute. reflexivity.
  - vm_compute. reflexivity.
Defined.

Lemma LoadSecret_error_iff_witness :
  snd (fst (fst (exec memVault
                   (LoadSecret "keystore" "pem" "password" defaultHandle "keystore1" "")
                   {[ ("secret", "kube/fr/secret/keystore1")
                      := {[ "value" := DString "AQI" ]} ]})))
  <> None.
Proof.
  apply (proj2 (LoadSecret_error_iff "keystore" "pem" "password" memVault
                  {[ ("secret", "kube/fr/secret/keystore1")
                     := {[ "value" := DString "AQI" ]} ]}
                  defaultHandle "keystore1" ""
                  ltac:(discriminate) ltac:(discriminate))).
  exists (mkKVSecret {[ "value" := DString "AQI" ]}), "AQI".
  split; [vm_compute; reflexivity|]. split; [vm_compute; reflexivity|].
  split; [right; repeat split; discriminate|].
  vm_compute. discriminate.
Defined.

Lemma codec_round_trip_same_kind_witness :
  getSecretByteValue "keystore" "pem" "password" defaultHandle
    (getSecretStrValue "keystore" "pem" "password" defaultHandle [x01; x02; x03] "pem")
    "password"
  = ([x01; x02; x03], None).
Proof.
  apply codec_round_trip_same_kind; try discriminate.
  right. split; [left | right]; reflexivity.
Defined.

Lemma newVault_fails_fast_witness :
  snd (exec (faultyVault ModeAuth) (newVault (mkAppConfig "" "" "" "")) ∅)
  = [NewClient DefaultVaultAddress; NewKubernetesAuth DefaultVaultKubeRoleName].
Proof.
  apply (newVault_fails_fast (faultyVault ModeAuth) ∅ (mkAppConfig "" "" "" "")
           (AuthConstruction (ExternalError "no role name was provided"))).
  eapply fails_auth; vm_compute; reflexivity.
Defined.

Lemma getSecretStrValue_base64_text_witness :
  base64.valid_base64
    (getSecretStrValue "keystore" "pem" "password" defaultHandle [x01; x02] "keystore")
  /\ forallb (fun c => base64.inAlphabet c || base64.isPadding c)
       (bytes_of_string
          (getSecretStrValue "keystore" "pem" "password" defaultHandle [x01; x02]
             "keystore")) = true
  /\ length (bytes_of_string
               (getSecretStrValue "keystore" "pem" "password" defaultHandle [x01; x02]
                  "keystore"))
     = (4 * ((length [x01; x02] + 2) / 3))%nat.
Proof.
  apply getSecretStrValue_base64_text. left. reflexivity.
Defined.

Lemma getSecretByteValue_length_witness :
  (4 * length (fst (getSecretByteValue "keystore" "pem" "password" defaultHandle
                      "AQI=x" "keystore"))
   <= 3 * length (bytes_of_string "AQI=x"))%nat.
Proof.
  apply (proj2 (getSecretByteValue_length "keystore" "pem" "password" defaultHandle
                  "AQI=x" "keystore")).
  left. reflexivity.
Defined.

Lemma wrong_kind_never_round_trips_witness :
  fst (getSecretByteValue "keystore" "pem" "password" defaultHandle
         (getSecretStrValue "keystore" "pem" "password" defaultHandle
            (bytes_of_string "abcd") "password")
         "keystore")
  <> bytes_of_string "abcd".
Proof.
  apply wrong_kind_never_round_trips; try discriminate.
  right. split; [right | left]; reflexivity.
Defined.

Lemma getSecretByteValue_ignores_newlines_witness :
  getSecretByteValue "keystore" "pem" "password" defaultHandle
    (string_of_bytes [x41; x51; x0d; x0a; x49; x44; x0a]) "keystore"
  = ([x01; x02; x03], None).
Proof.
  apply (proj2 (proj2 (getSecretByteValue_ignores_newlines "keystore" "pem" "password"
                         defaultHandle
                         (string_of_bytes [x41; x51; x0d; x0a; x49; x44; x0a])
                         "AQID" "keystore"
                         ltac:(left; reflexivity) ltac:(vm_compute; reflexivity)))).
  vm_compute. reflexivity.
Defined.

Lemma empty_payload_loads_as_miss_witness :
  getSecretStrValue "keystore" "pem" "password" defaultHandle [] "keystore" = ""
  /\ fst (fst (exec memVault
                 (LoadSecret "keystore" "pem" "password" defaultHandle "keystore1"
                    "keystore")
                 {[ ("secret", "kube/fr/secret/keystore1")
                    := {[ "value" := DString "" ]} ]}))
     = ([], None).
Proof.
  apply (empty_payload_loads_as_miss "keystore" "pem" "password" memVault _ defaultHandle
           "keystore1" "keystore" "keystore" (mkKVSecret {[ "value" := DString "" ]})).
  - vm_compute. reflexivity.
  - vm_compute. reflexivity.
Defined.

Lemma LoadSecret_error_is_corrupt_input_witness :
  exists (secret : KVSecret) (value : string) (n : Z),
    fst (memVault (KVGet (vaultClient defaultHandle) (kvMount defaultHandle)
                     (getSecretPath defaultHandle "keystore1"))
           {[ ("secret", "kube/fr/secret/keystore1")
              := {[ "value" := DString "AQI" ]} ]})
    = inr secret
    /\ Data secret !! "value" = Some (DString value)
    /\ CorruptInputError 0 = CorruptInputError n
    /\ 0 <= n <= Z.of_nat (length (bytes_of_string value)).
Proof.
  apply (LoadSecret_error_is_corrupt_input "keystore" "pem" "password" memVault
           {[ ("secret", "kube/fr/secret/keystore1") := {[ "value" := DString "AQI" ]} ]}
           defaultHandle "keystore1" "keystore" (CorruptInputError 0)).
  vm_compute. reflexivity.
Defined.

Lemma newVault_settings_nonempty_witness :
  secretPath defaultHandle <> "" /\ kvMount defaultHandle <> "".
Proof.
  apply (proj2 (newVault_settings_nonempty memVault ∅ (mkAppConfig "" "" "" ""))
           defaultHandle None).
  vm_compute. reflexivity.
Defined.
